(** * WagmiStrategy: the EVM wallet adapter of the Arweave wallet kit

    A shallow embedding of [strategies/wagmi/src/WagmiStrategy.ts].  The
    adapter is a class with two cached fields ([account], [signer]) that it
    keeps in step with an external connector store.  A method body is a
    program in a small state-and-exception monad over a [World]; the outside
    (connector routines, signer derivation, the wallet provider, the
    encryption utility) is an environment of oracles that answer from the
    history of observable actions, so that every statement below quantifies
    over every possible behaviour of the outside.

    A method body is first given as it runs when nothing reaches the
    adapter while it is suspended; [connect_interleaved] is [connect] with
    its two suspension points, at which emissions and settlements arrive
    and the adapter's own listener runs.  What the adapter starts
    without awaiting it (the signer derivation of the listener and of
    [sync], and the [sync] of the constructor) is parked as a task, and the
    emissions of the store and the settlements of parked tasks are the
    inputs of a transition function, in any order. *)

From Stdlib Require Import ZArith Lia Ascii String.
From stdpp Require Import base option list strings gmap.

Local Open Scope string_scope.

(** ** Values of the host language *)

(** A thrown value: [new Error(message)]. *)
Inductive JsError : Type :=
| Error (message : string).

(** How a promise settles (and, for a synchronous call, returns or throws). *)
Inductive Outcome (A : Type) : Type :=
| Resolved (value : A)
| Rejected (reason : JsError).
Arguments Resolved {A} value.
Arguments Rejected {A} reason.

(** The address type of the connector is the template type [`0x${string}`]:
    a text that starts with the two characters [0x]. *)
Inductive Address : Type :=
| Addr0x (digits : string).

Definition address_text (a : Address) : string :=
  match a with Addr0x digits => "0x" ++ digits end.

(** [ethers.Signer]: an opaque capability, named by a reference. *)
Inductive Signer : Type :=
| SignerRef (ref : nat).

(** [ethers.TransactionRequest], arweave [Transaction], [DispatchResult]:
    opaque payloads that the adapter only passes along. *)
Inductive TransactionRequest : Type :=
| TxRequest (payload : string).

Inductive Transaction : Type :=
| ArweaveTx (payload : string).

Inductive DispatchResult : Type :=
| Dispatched (id : string).

(** [new CustomEvent(type)]: the first constructor argument is the event type. *)
Inductive CustomEvent : Type :=
| NewCustomEvent (type : string).

(** A text as [TextDecoder] produces it and [TextEncoder] consumes it: a
    sequence of code points.  A byte sequence ([Uint8Array]) is a list of
    integers in [0, 255]. *)
Definition jsstring : Type := list Z.
Definition bytes : Type := list Z.

(** JavaScript truthiness of a text: every text but the empty one. *)
Definition truthy_string (s : string) : bool :=
  match s with
  | EmptyString => false
  | String _ _ => true
  end.

(** Truthiness of a [string | null] value. *)
Definition truthy (v : option string) : bool :=
  match v with
  | Some s => truthy_string s
  | None => false
  end.

(** ** The connector store *)

(** One connection of the connector state: only its accounts matter here. *)
Record Connection : Type := mkConnection {
  accounts : list Address
}.

(** The state the connector store emits: the uid of the current connection
    ([string | null]) and the [Map] of connections by uid. *)
Record StoreState : Type := mkStoreState {
  current : option string;
  connections : gmap string Connection
}.

Definition disconnected_state : StoreState :=
  {| current := None; connections := ∅ |}.

(** Functions of the host application are opaque; they are named. *)
Definition ListenerId : Type := nat.

(** The two callbacks the adapter hands to [config.subscribe]. *)
Inductive Callback : Type :=
| AccountListener
| AddressListener (listener : ListenerId).

(** Continuations parked at a suspension point: the [.then/.catch] chain of
    a signer derivation that nobody awaits, and the rest of a [sync()] that
    the constructor started without awaiting it. *)
Inductive Task : Type :=
| SignerThen
| SyncResume.

(** ** JSON-RPC calls to the wallet provider *)

Inductive RpcRequest : Type :=
| EthGetEncryptionPublicKey (account : option string)
| EthDecrypt (hexData : string) (address : string).

Definition rpc_method (r : RpcRequest) : string :=
  match r with
  | EthGetEncryptionPublicKey _ => "eth_getEncryptionPublicKey"
  | EthDecrypt _ _ => "eth_decrypt"
  end.

(** What a provider call resolves with has type [any]. *)
Inductive RpcReply : Type :=
| ReplyText (text : jsstring)
| ReplyBytes (data : bytes).

(** The object [encrypt] of [@metamask/eth-sig-util] returns. *)
Record EncryptedData : Type := mkEncryptedData {
  version : string;
  nonce : jsstring;
  ephemPublicKey : jsstring;
  ciphertext : jsstring
}.

(** ** Observable actions *)

Inductive Event : Type :=
| CallConnect
| CallDisconnect
| CallReconnect
| CallGetAccount
| CallGetEthersSigner
| CallSignMessage (s : Signer) (message : string)
| CallSendTransaction (s : Signer) (transaction : TransactionRequest)
| CallProviderSend (s : Signer) (request : RpcRequest)
| CallEncrypt (publicKey : RpcReply) (data : jsstring) (version : string)
| ConsoleError (label : option string) (error : JsError)
| Subscribed (id : nat) (cb : Callback)
| Unsubscribed (id : nat)
| ListenerCalled (listener : ListenerId) (address : string)
| EventListenerCalled (listener : ListenerId) (event : CustomEvent).

(** ** The adapter and its surroundings *)

Record World : Type := mkWorld {
  (* fields of the class *)
  account : option string;
  signer : option Signer;
  unsubscribeAccount : option nat;
  (* the connector store behind [this.config] *)
  store_state : StoreState;
  subscribers : list (nat * Callback);
  next_subscription : nat;
  (* parked continuations, oldest first *)
  tasks : list Task;
  (* observable actions, newest first *)
  trace : list Event
}.

Definition with_account (a : option string) (w : World) : World :=
  {| account := a; signer := signer w;
     unsubscribeAccount := unsubscribeAccount w;
     store_state := store_state w; subscribers := subscribers w;
     next_subscription := next_subscription w;
     tasks := tasks w; trace := trace w |}.

Definition with_signer (s : option Signer) (w : World) : World :=
  {| account := account w; signer := s;
     unsubscribeAccount := unsubscribeAccount w;
     store_state := store_state w; subscribers := subscribers w;
     next_subscription := next_subscription w;
     tasks := tasks w; trace := trace w |}.

Definition with_unsubscribeAccount (u : option nat) (w : World) : World :=
  {| account := account w; signer := signer w;
     unsubscribeAccount := u;
     store_state := store_state w; subscribers := subscribers w;
     next_subscription := next_subscription w;
     tasks := tasks w; trace := trace w |}.

Definition with_store_state (st : StoreState) (w : World) : World :=
  {| account := account w; signer := signer w;
     unsubscribeAccount := unsubscribeAccount w;
     store_state := st; subscribers := subscribers w;
     next_subscription := next_subscription w;
     tasks := tasks w; trace := trace w |}.

Definition with_subscribers (subs : list (nat * Callback)) (next : nat)
    (w : World) : World :=
  {| account := account w; signer := signer w;
     unsubscribeAccount := unsubscribeAccount w;
     store_state := store_state w; subscribers := subs;
     next_subscription := next;
     tasks := tasks w; trace := trace w |}.

Definition with_tasks (ts : list Task) (w : World) : World :=
  {| account := account w; signer := signer w;
     unsubscribeAccount := unsubscribeAccount w;
     store_state := store_state w; subscribers := subscribers w;
     next_subscription := next_subscription w;
     tasks := ts; trace := trace w |}.

Definition log (e : Event) (w : World) : World :=
  {| account := account w; signer := signer w;
     unsubscribeAccount := unsubscribeAccount w;
     store_state := store_state w; subscribers := subscribers w;
     next_subscription := next_subscription w;
     tasks := tasks w; trace := e :: trace w |}.

(** The field initialisers of the class, over a given store. *)
Definition fresh_world (st : StoreState) : World :=
  {| account := None; signer := None; unsubscribeAccount := None;
     store_state := st; subscribers := []; next_subscription := 0;
     tasks := []; trace := [] |}.

(** The same over a configuration that is shared: the store already has
    subscribers of other owners. *)
Definition fresh_world_on (st : StoreState) (subs : list (nat * Callback))
    (next : nat) : World :=
  {| account := None; signer := None; unsubscribeAccount := None;
     store_state := st; subscribers := subs; next_subscription := next;
     tasks := []; trace := [] |}.

(** ** The outside

    Each oracle answers from the history of observable actions so far, so
    the same routine may answer differently at different times. *)
Record Env : Type := mkEnv {
  wagmi_connect : list Event → Outcome (list Address);
  wagmi_disconnect : list Event → Outcome unit;
  wagmi_reconnect : list Event → Outcome unit;
  wagmi_getAccount_addresses : list Event → option (list Address);
  getEthersSigner : list Event → Outcome Signer;
  signer_signMessage : list Event → Signer → string → Outcome string;
  signer_sendTransaction :
    list Event → Signer → TransactionRequest → Outcome string;
  provider_send : list Event → Signer → RpcRequest → Outcome RpcReply;
  sigutil_encrypt :
    list Event → RpcReply → jsstring → string → Outcome EncryptedData;
  JSON_stringify : EncryptedData → jsstring
}.

(** ** The monad of method bodies *)

Definition M (A : Type) : Type := World → Outcome A * World.

Definition ret {A} (a : A) : M A := fun w => (Resolved a, w).

Definition throw {A} (e : JsError) : M A := fun w => (Rejected e, w).

Definition bind {A B} (m : M A) (k : A → M B) : M B :=
  fun w =>
    match m w with
    | (Resolved a, w') => k a w'
    | (Rejected e, w') => (Rejected e, w')
    end.

Notation "x <- m ;; k" := (bind m (fun x => k))
  (at level 20, m at level 99, k at level 200, only parsing).
Notation "m ;; k" := (bind m (fun _ => k))
  (at level 100, k at level 200, only parsing, right associativity).

(** [try { body } catch (error) { handler }]: what the body changed before
    it threw stays changed. *)
Definition try_catch {A} (body : M A) (handler : JsError → M A) : M A :=
  fun w =>
    match body w with
    | (Resolved a, w') => (Resolved a, w')
    | (Rejected e, w') => handler e w'
    end.

Definition modify (f : World → World) : M unit := fun w => (Resolved tt, f w).

Definition read {A} (f : World → A) : M A := fun w => (Resolved (f w), w).

(** A call to the outside: it is recorded, and the oracle decides how it
    settles. *)
Definition external {A} (e : Event) (oracle : list Event → Outcome A) : M A :=
  fun w => (oracle (trace w), log e w).

Definition console_error (label : string) (error : JsError) : M unit :=
  modify (log (ConsoleError (Some label) error)).

(** Start a signer derivation and park its [.then(...).catch(...)] chain. *)
Definition derive_signer_in_background : M unit :=
  modify (fun w =>
    with_tasks (tasks w ++ [SignerThen])%list (log CallGetEthersSigner w)).

(** ** The store: [config.subscribe] and the closure it returns *)

(** Modelled from the spec: the connector store behind [this.config] is a
    dependency of the adapter with subscribe-with-selector semantics,
    [subscribe(selector, callback)].  With the identity selector the
    callback is called with every state the store takes; [subscribe]
    returns the closure that ends this one subscription.  Subscriptions are
    named by the number the store gives them. *)

Definition subscribe (cb : Callback) : M nat :=
  fun w =>
    let id := next_subscription w in
    (Resolved id,
     log (Subscribed id cb)
       (with_subscribers (subscribers w ++ [(id, cb)])%list (S id) w)).

Definition unsubscribe (id : nat) : M unit :=
  modify (fun w =>
    log (Unsubscribed id)
      (with_subscribers
         (filter (fun s => fst s ≠ id) (subscribers w))
         (next_subscription w) w)).

(** ** Text encoding: [TextDecoder], [TextEncoder] and the hex framing

    [new TextDecoder()] is the UTF-8 decoder of the Encoding standard in
    replacement mode with the byte order mark stripped; [new TextEncoder()]
    is its UTF-8 encoder. *)

Local Open Scope Z_scope.

Definition REPLACEMENT : Z := 0xFFFD.
Definition BOM : Z := 0xFEFF.

Record Utf8State : Type := mkUtf8State {
  code_point : Z;
  bytes_seen : nat;
  bytes_needed : nat;
  lower_boundary : Z;
  upper_boundary : Z
}.

Definition utf8_start : Utf8State :=
  {| code_point := 0; bytes_seen := 0; bytes_needed := 0;
     lower_boundary := 0x80; upper_boundary := 0xBF |}.

Definition in_range (lo hi b : Z) : bool := (lo <=? b) && (b <=? hi).

(** The decoder's handler when no continuation byte is awaited. *)
Definition utf8_lead (b : Z) : list Z * Utf8State :=
  if in_range 0x00 0x7F b then ([b], utf8_start)
  else if in_range 0xC2 0xDF b then
    ([], {| code_point := Z.land b 0x1F; bytes_seen := 0; bytes_needed := 1;
            lower_boundary := 0x80; upper_boundary := 0xBF |})
  else if in_range 0xE0 0xEF b then
    ([], {| code_point := Z.land b 0xF; bytes_seen := 0; bytes_needed := 2;
            lower_boundary := if b =? 0xE0 then 0xA0 else 0x80;
            upper_boundary := if b =? 0xED then 0x9F else 0xBF |})
  else if in_range 0xF0 0xF4 b then
    ([], {| code_point := Z.land b 0x7; bytes_seen := 0; bytes_needed := 3;
            lower_boundary := if b =? 0xF0 then 0x90 else 0x80;
            upper_boundary := if b =? 0xF4 then 0x8F else 0xBF |})
  else ([REPLACEMENT], utf8_start).

(** The handler: a byte outside the awaited range is an error, and the byte
    is put back and read again from the start state. *)
Definition utf8_handler (st : Utf8State) (b : Z) : list Z * Utf8State :=
  match bytes_needed st with
  | O => utf8_lead b
  | S _ =>
    if negb (in_range (lower_boundary st) (upper_boundary st) b) then
      let (out, st') := utf8_lead b in (REPLACEMENT :: out, st')
    else
      let cp := Z.lor (Z.shiftl (code_point st) 6) (Z.land b 0x3F) in
      if Nat.eqb (S (bytes_seen st)) (bytes_needed st) then ([cp], utf8_start)
      else
        ([], {| code_point := cp; bytes_seen := S (bytes_seen st);
                bytes_needed := bytes_needed st;
                lower_boundary := 0x80; upper_boundary := 0xBF |})
  end.

Fixpoint utf8_run (st : Utf8State) (input : bytes) : jsstring :=
  match input with
  | [] => match bytes_needed st with O => [] | S _ => [REPLACEMENT] end
  | b :: rest =>
    let (out, st') := utf8_handler st b in (out ++ utf8_run st' rest)%list
  end.

Definition strip_bom (s : jsstring) : jsstring :=
  match s with
  | c :: rest => if c =? BOM then rest else s
  | [] => []
  end.

(** [new TextDecoder().decode(data)] *)
Definition TextDecoder_decode (data : bytes) : jsstring :=
  strip_bom (utf8_run utf8_start data).

Definition is_surrogate (c : Z) : bool := in_range 0xD800 0xDFFF c.

(** A text is turned into scalar values before it is encoded. *)
Definition to_scalar_value (c : Z) : Z :=
  if is_surrogate c then REPLACEMENT else c.

Definition utf8_encode_code_point (c : Z) : bytes :=
  if in_range 0x0000 0x007F c then [c]
  else if in_range 0x0080 0x07FF c then
    [ Z.shiftr c 6 + 0xC0;
      Z.lor 0x80 (Z.land c 0x3F) ]
  else if in_range 0x0800 0xFFFF c then
    [ Z.shiftr c 12 + 0xE0;
      Z.lor 0x80 (Z.land (Z.shiftr c 6) 0x3F);
      Z.lor 0x80 (Z.land c 0x3F) ]
  else
    [ Z.shiftr c 18 + 0xF0;
      Z.lor 0x80 (Z.land (Z.shiftr c 12) 0x3F);
      Z.lor 0x80 (Z.land (Z.shiftr c 6) 0x3F);
      Z.lor 0x80 (Z.land c 0x3F) ].

(** [new TextEncoder().encode(text)] *)
Definition TextEncoder_encode (text : jsstring) : bytes :=
  flat_map (fun c => utf8_encode_code_point (to_scalar_value c)) text.

(** A Unicode scalar value: a code point that is no surrogate. *)
Definition scalar_value (c : Z) : Prop :=
  0 <= c <= 0x10FFFF ∧ ¬ (0xD800 <= c <= 0xDFFF).

(** [digit.toString(16)] for one hex digit. *)
Definition hex_digit (d : Z) : ascii :=
  match d with
  | 0 => "0" | 1 => "1" | 2 => "2" | 3 => "3" | 4 => "4"
  | 5 => "5" | 6 => "6" | 7 => "7" | 8 => "8" | 9 => "9"
  | 10 => "a" | 11 => "b" | 12 => "c" | 13 => "d" | 14 => "e"
  | _ => "f"
  end%char.

(** [byte.toString(16)] for a byte. *)
Definition toString16 (b : Z) : string :=
  if b <? 16 then String (hex_digit b) EmptyString
  else String (hex_digit (b / 16)) (String (hex_digit (b mod 16)) EmptyString).

(** [s.padStart(2, "0")] *)
Definition padStart2 (s : string) : string :=
  match s with
  | EmptyString => "00"
  | String c EmptyString => String "0"%char (String c EmptyString)
  | _ => s
  end%string.

(** The template literal of [decrypt]: [0x] followed by the two-digit hex
    form of every byte, joined without separator. *)
Definition hex_frame (data : bytes) : string :=
  ("0x" ++
   foldr (fun b acc => padStart2 (toString16 b) ++ acc) EmptyString data
  )%string.

Local Close Scope Z_scope.

(** ** The methods of [WagmiStrategy] *)

Section Methods.

Variable env : Env.

(** [current.connections.get(current.current)?.accounts[0] ?? null] *)
Definition connection_first_account (st : StoreState) : option Address :=
  match current st with
  | Some uid =>
    match connections st !! uid with
    | Some connection => head (accounts connection)
    | None => None
    end
  | None => None
  end.

(** The account the callbacks compute from an emitted state: guarded by
    [if (current.current)]. *)
Definition listener_new_account (st : StoreState) : option Address :=
  if truthy (current st) then connection_first_account st else None.

(** The callback [setupListeners] subscribes. *)
Definition account_listener (st : StoreState) : M unit :=
  let newAccount := listener_new_account st in
  modify (with_account (address_text <$> newAccount)) ;;
  a <- read account ;;
  if truthy a then derive_signer_in_background
  else modify (with_signer None).

Definition setupListeners : M unit :=
  id <- subscribe AccountListener ;;
  modify (with_unsubscribeAccount (Some id)).

Definition cleanupListeners : M unit :=
  u <- read unsubscribeAccount ;;
  match u with
  | Some id => unsubscribe id
  | None => ret tt
  end.

(** What [sync] does once [reconnect] has resolved. *)
Definition sync_rest : M unit :=
  a <- read account ;;
  if truthy a then derive_signer_in_background
  else modify (with_signer None).

Definition sync : M unit :=
  external CallReconnect (wagmi_reconnect env) ;;
  sync_rest.

(** [connect] when nothing arrives while it is suspended; the general
    form is [connect_interleaved] below. *)
Definition connect : M unit :=
  try_catch
    (accs <- external CallConnect (wagmi_connect env) ;;
     modify (with_account (address_text <$> head accs)) ;;
     s <- external CallGetEthersSigner (getEthersSigner env) ;;
     modify (with_signer (Some s)))
    (fun error =>
       console_error "[Arweave Wallet Kit] Error connecting to wallet:" error).

Definition disconnect : M unit :=
  try_catch
    (external CallDisconnect (wagmi_disconnect env) ;;
     modify (with_account None) ;;
     modify (with_signer None))
    (fun error =>
       console_error "[Arweave Wallet Kit] Error disconnecting:" error).

Definition CONNECT_ERROR : string :=
  "[Arweave Wallet Kit] Error connecting to wallet:".

Definition getActiveAddress : M string :=
  a <- read account ;;
  ret (default EmptyString a).

Definition getAllAddresses : M (list string) :=
  fun w =>
    let accs := wagmi_getAccount_addresses env (trace w) in
    (Resolved (address_text <$> default [] accs), log CallGetAccount w).

Definition signMessage (message : string) : M string :=
  s <- read signer ;;
  match s with
  | None => throw (Error "Signer not available")
  | Some sg =>
    external (CallSignMessage sg message)
      (fun h => signer_signMessage env h sg message)
  end.

(** The oracle answers with the [hash] of the transaction response. *)
Definition signTransaction (transaction : TransactionRequest) : M string :=
  s <- read signer ;;
  match s with
  | None => throw (Error "Signer not available")
  | Some sg =>
    external (CallSendTransaction sg transaction)
      (fun h => signer_sendTransaction env h sg transaction)
  end.

(** The host's listener is opaque: its invocation is recorded. *)
Definition address_listener (listener : ListenerId) (st : StoreState) : M unit :=
  if truthy (current st) then
    match connection_first_account st with
    | Some newAccount =>
      if truthy_string (address_text newAccount)
      then modify (log (ListenerCalled listener (address_text newAccount)))
      else ret tt
    | None => ret tt
    end
  else ret tt.

(** The closure [addAddressEvent] returns: [(e) => unsubscribe()]. *)
Inductive Detacher : Type :=
| DetachSubscription (id : nat).

Definition addAddressEvent (listener : ListenerId) : M Detacher :=
  id <- subscribe (AddressListener listener) ;;
  ret (DetachSubscription id).

Definition call_detacher (d : Detacher) (e : CustomEvent) : M unit :=
  match d with DetachSubscription id => unsubscribe id end.

(** What the host can pass where a [(e: CustomEvent) => void] is expected:
    a function of its own, which is opaque and whose call is recorded, or a
    closure that [addAddressEvent] returned, which has that very type. *)
Inductive EventListener : Type :=
| HostEventListener (listener : ListenerId)
| DetacherListener (d : Detacher).

Definition call_event_listener (listener : EventListener) (e : CustomEvent)
    : M unit :=
  match listener with
  | HostEventListener l => modify (log (EventListenerCalled l e))
  | DetacherListener d => call_detacher d e
  end.

Definition removeAddressEvent (listener : EventListener) : M unit :=
  a <- read account ;;
  call_event_listener listener (NewCustomEvent (default EmptyString a)).

Definition ENCRYPTION_VERSION : string := "x25519-xsalsa20-poly1305".

Definition encrypt (data : bytes) : M bytes :=
  sg <- external CallGetEthersSigner (getEthersSigner env) ;;
  a <- read account ;;
  publicKey <-
    external (CallProviderSend sg (EthGetEncryptionPublicKey a))
      (fun h => provider_send env h sg (EthGetEncryptionPublicKey a)) ;;
  let stringData := TextDecoder_decode data in
  encryptedData <-
    external (CallEncrypt publicKey stringData ENCRYPTION_VERSION)
      (fun h => sigutil_encrypt env h publicKey stringData ENCRYPTION_VERSION) ;;
  ret (TextEncoder_encode (JSON_stringify env encryptedData)).

Definition decrypt (data : bytes) : M RpcReply :=
  sg <- external CallGetEthersSigner (getEthersSigner env) ;;
  address <- getActiveAddress ;;
  let hexData := hex_frame (TextEncoder_encode (TextDecoder_decode data)) in
  external (CallProviderSend sg (EthDecrypt hexData address))
    (fun h => provider_send env h sg (EthDecrypt hexData address)).

Definition dispatch (transaction : Transaction) : M DispatchResult :=
  throw (Error "Method not available on ethereum wallets.").

Definition addToken (address : string) : M unit :=
  throw (Error "Method not available on ethereum wallets").

Definition sign (transaction : Transaction) (options : option string)
    : M Transaction :=
  throw (Error
    "Method not available on ethereum wallets - use signDataItem instead").

Definition getWalletNames : M (gmap string string) :=
  throw (Error "Method not available on ethereum wallets.").

(** ** The constructor

    [this.sync()] is not awaited: it runs up to its first suspension point
    (the call of [reconnect]) and its rest is parked; then the listener is
    installed. *)
Definition sync_start : M unit :=
  modify (fun w =>
    with_tasks (tasks w ++ [SyncResume])%list (log CallReconnect w)).

Definition constructor (st : StoreState) : World :=
  snd ((sync_start ;; setupListeners) (fresh_world st)).

Definition constructor_on (st : StoreState) (subs : list (nat * Callback))
    (next : nat) : World :=
  snd ((sync_start ;; setupListeners) (fresh_world_on st subs next)).

(** ** Events that reach the adapter from outside *)

Inductive Settlement : Type :=
| SignerSettled (o : Outcome Signer)
| ReconnectSettled (o : Outcome unit).

Inductive Input : Type :=
| Emit (st : StoreState)
| Settle (i : nat) (s : Settlement).

(** [.then((signer) => { this.signer = signer }).catch(console.error)] *)
Definition signer_then (o : Outcome Signer) : M unit :=
  match o with
  | Resolved sg => modify (with_signer (Some sg))
  | Rejected e => modify (log (ConsoleError None e))
  end.

Definition sync_resume (o : Outcome unit) : M unit :=
  match o with
  | Resolved _ => sync_rest
  | Rejected e => throw e
  end.

Definition run_callback (cb : Callback) (st : StoreState) : M unit :=
  match cb with
  | AccountListener => account_listener st
  | AddressListener listener => address_listener listener st
  end.

(** Modelled from the spec: an emission.  The store takes a new state and
    calls every subscriber with it, in the order of subscription. *)
Definition emit (st : StoreState) (w : World) : World :=
  foldl (fun w' sub => snd (run_callback (snd sub) st w'))
        (with_store_state st w) (subscribers w).

(** The [i]-th parked continuation runs with the settlement of the promise
    it waits for. *)
Definition settle (i : nat) (s : Settlement) (w : World) : World :=
  match tasks w !! i, s with
  | Some SignerThen, SignerSettled o =>
    snd (signer_then o (with_tasks (delete i (tasks w)) w))
  | Some SyncResume, ReconnectSettled o =>
    snd (sync_resume o (with_tasks (delete i (tasks w)) w))
  | _, _ => w
  end.

Definition react (w : World) (i : Input) : World :=
  match i with
  | Emit st => emit st w
  | Settle k s => settle k s w
  end.

Definition react_all (w : World) (inputs : list Input) : World :=
  foldl react w inputs.

(** ** [connect] with its suspension points

    [connect] suspends twice, at [await connect(...)] and at
    [await getEthersSigner(...)].  While it is suspended the store may emit
    and parked tasks may settle; the adapter's own listener then runs.
    [during_connect] and [during_derivation] are the inputs that arrive at
    the two suspension points.  Each awaited routine is called, and its
    oracle consulted, before the suspension. *)
Definition connect_interleaved
    (during_connect during_derivation : list Input) : M unit :=
  fun w =>
    let called := log CallConnect w in
    let resumed := react_all called during_connect in
    match wagmi_connect env (trace w) with
    | Rejected error => console_error CONNECT_ERROR error resumed
    | Resolved accs =>
      let written := with_account (address_text <$> head accs) resumed in
      let resumed' :=
        react_all (log CallGetEthersSigner written) during_derivation in
      match getEthersSigner env (trace written) with
      | Rejected error => console_error CONNECT_ERROR error resumed'
      | Resolved s => (Resolved tt, with_signer (Some s) resumed')
      end
    end.

End Methods.

(** ** Scenarios: concrete outsides and worlds *)

Definition alice : Address := Addr0x "a11ce".
Definition bob : Address := Addr0x "b0b".

Definition user_rejected : JsError := Error "User rejected the request.".

(** A wallet that grants every request. *)
Definition granting_env : Env :=
  {| wagmi_connect := fun _ => Resolved [alice; bob];
     wagmi_disconnect := fun _ => Resolved tt;
     wagmi_reconnect := fun _ => Resolved tt;
     wagmi_getAccount_addresses := fun _ => Some [alice; bob];
     getEthersSigner := fun _ => Resolved (SignerRef 1);
     signer_signMessage := fun _ _ m => Resolved ("signed:" ++ m);
     signer_sendTransaction := fun _ _ _ => Resolved "0xhash";
     provider_send := fun _ _ _ => Rejected (Error "Method not found");
     sigutil_encrypt := fun _ _ _ _ => Rejected (Error "Encryption failed");
     JSON_stringify := fun e => ciphertext e |}.

(** A wallet whose user declines, and that reports nothing. *)
Definition refusing_env : Env :=
  {| wagmi_connect := fun _ => Rejected user_rejected;
     wagmi_disconnect := fun _ => Rejected (Error "Connector not found");
     wagmi_reconnect := fun _ => Resolved tt;
     wagmi_getAccount_addresses := fun _ => None;
     getEthersSigner := fun _ => Rejected (Error "Connector not connected");
     signer_signMessage := fun _ _ _ => Rejected user_rejected;
     signer_sendTransaction := fun _ _ _ => Rejected user_rejected;
     provider_send := fun _ _ _ => Rejected (Error "Method not found");
     sigutil_encrypt := fun _ _ _ _ => Rejected (Error "Encryption failed");
     JSON_stringify := fun e => ciphertext e |}.

(** The connector connects, but no signer can be derived. *)
Definition signerless_env : Env :=
  {| wagmi_connect := fun _ => Resolved [alice];
     wagmi_disconnect := fun _ => Resolved tt;
     wagmi_reconnect := fun _ => Resolved tt;
     wagmi_getAccount_addresses := fun _ => Some [alice];
     getEthersSigner := fun _ => Rejected (Error "Connector not connected");
     signer_signMessage := fun _ _ _ => Rejected user_rejected;
     signer_sendTransaction := fun _ _ _ => Rejected user_rejected;
     provider_send := fun _ _ _ => Rejected (Error "Method not found");
     sigutil_encrypt := fun _ _ _ _ => Rejected (Error "Encryption failed");
     JSON_stringify := fun e => ciphertext e |}.


(** A freshly constructed adapter over a disconnected store. *)
Definition idle_world : World := constructor disconnected_state.

(** The same adapter once alice is connected and her signer is cached. *)
Definition connected_world : World :=
  with_signer (Some (SignerRef 1))
    (with_account (Some (address_text alice)) idle_world).

(** ** Errors of the capability stubs *)

(** The messages of the four stubs all start the same way. *)
Definition not_supported_error (e : JsError) : Prop :=
  match e with
  | Error message =>
    ∃ rest, message = "Method not available on ethereum wallets" ++ rest
  end.

(** ** Reading emissions, and bookkeeping of the store *)

(** The specification's reading of an emitted state: the active connection
    is the entry of [connections] under the [current] uid, if there is one. *)
Definition active_connection (st : StoreState) : option Connection :=
  uid ← current st; connections st !! uid.

Definition first_account_of_active_connection (st : StoreState)
    : option string :=
  c ← active_connection st; address_text <$> head (accounts c).

(** The connector draws its uids from a generator of non-empty texts. *)
Definition uid_well_formed (st : StoreState) : Prop :=
  current st ≠ Some EmptyString.

Definition is_settlement (i : Input) : Prop :=
  match i with
  | Settle _ _ => True
  | Emit _ => False
  end.

Definition listener_installed (w : World) : Prop :=
  ∃ id, (id, AccountListener) ∈ subscribers w.

(** The ids the store has handed out are below the next one. *)
Definition store_ok (w : World) : Prop :=
  Forall (fun sub => fst sub < next_subscription w) (subscribers w).

(** The addresses a host listener was called with, newest first. *)
Definition calls_of (listener : ListenerId) (tr : list Event) : list string :=
  omap (fun e =>
          match e with
          | ListenerCalled l a =>
            if decide (l = listener) then Some a else None
          | _ => None
          end) tr.

Definition is_account_listener (cb : Callback) : bool :=
  match cb with
  | AccountListener => true
  | AddressListener _ => false
  end.

Definition has_account_listener (subs : list (nat * Callback)) : bool :=
  existsb (fun sub => is_account_listener (snd sub)) subs.

Definition not_subscribed (listener : ListenerId) (w : World) : Prop :=
  ∀ id, (id, AddressListener listener) ∉ subscribers w.

(** The callbacks of a list of subscribers, run in order. *)
Definition run_subscribers (st : StoreState) (subs : list (nat * Callback))
    (w : World) : World :=
  foldl (fun w' sub => snd (run_callback (snd sub) st w')) w subs.

(** A store state in which alice and bob are connected under one uid. *)
Definition alice_state : StoreState :=
  {| current := Some "uid-1";
     connections := {[ "uid-1" := {| accounts := [alice; bob] |} ]} |}.

(** ** The round trip through [encrypt] and [decrypt] *)

Definition is_byte (b : Z) : Prop := (0 <= b < 256)%Z.

(** A text of scalar values that does not start with a byte order mark. *)
Definition plain_text (text : jsstring) : Prop :=
  Forall scalar_value text ∧ head text ≠ Some BOM.

(** [decrypt(await encrypt(data))] *)
Definition encrypt_then_decrypt (env : Env) (data : bytes) : M RpcReply :=
  encrypted <- encrypt env data ;;
  decrypt env encrypted.

(** The position of a character among the sixteen hex digits. *)
Fixpoint index_of (c : ascii) (digits : list ascii) (i : Z) : option Z :=
  match digits with
  | [] => None
  | d :: rest => if Ascii.eqb c d then Some i else index_of c rest (i + 1)%Z
  end.

Definition hex_value (c : ascii) : option Z :=
  index_of c (list_ascii_of_string "0123456789abcdef") 0%Z.

Fixpoint unhex_pairs (s : string) : bytes :=
  match s with
  | String hi (String lo rest) =>
    match hex_value hi, hex_value lo with
    | Some h, Some l => (16 * h + l)%Z :: unhex_pairs rest
    | _, _ => []
    end
  | _ => []
  end.

Definition unhex_frame (s : string) : bytes :=
  match s with
  | String "0" (String "x" rest) => unhex_pairs rest
  | _ => []
  end.




(** *** A mock wallet with the identity cipher *)

(** Strip the braces of the mock's serialisation. *)
Definition unbrace (text : jsstring) : jsstring := removelast (tail text).

Definition echo_env : Env :=
  {| wagmi_connect := fun _ => Resolved [alice];
     wagmi_disconnect := fun _ => Resolved tt;
     wagmi_reconnect := fun _ => Resolved tt;
     wagmi_getAccount_addresses := fun _ => Some [alice];
     getEthersSigner := fun _ => Resolved (SignerRef 1);
     signer_signMessage := fun _ _ m => Resolved ("signed:" ++ m);
     signer_sendTransaction := fun _ _ _ => Resolved "0xhash";
     provider_send := fun _ _ request =>
       match request with
       | EthGetEncryptionPublicKey _ => Resolved (ReplyText [0x6B; 0x31]%Z)
       | EthDecrypt hexData _ =>
         Resolved
           (ReplyBytes
              (TextEncoder_encode
                 (unbrace (TextDecoder_decode (unhex_frame hexData)))))
       end;
     sigutil_encrypt := fun _ _ data v =>
       Resolved {| version := v; nonce := []; ephemPublicKey := [];
                   ciphertext := data |};
     JSON_stringify := fun e => (0x7B :: ciphertext e ++ [0x7D])%Z%list |}.


(** ** Histories of the adapter

    Everything that can happen to one adapter after its construction: the
    host calls a method, the store emits, or a parked task is settled. *)

Inductive Action : Type :=
| DoReceive (i : Input)
| DoSync
| DoConnect
| DoDisconnect
| DoGetActiveAddress
| DoGetAllAddresses
| DoSignMessage (message : string)
| DoSignTransaction (transaction : TransactionRequest)
| DoAddAddressEvent (listener : ListenerId)
| DoDetach (d : Detacher) (e : CustomEvent)
| DoRemoveAddressEvent (listener : EventListener)
| DoCleanupListeners
| DoEncrypt (data : bytes)
| DoDecrypt (data : bytes).

Definition perform (env : Env) (w : World) (a : Action) : World :=
  match a with
  | DoReceive i => react w i
  | DoSync => snd (sync env w)
  | DoConnect => snd (connect env w)
  | DoDisconnect => snd (disconnect env w)
  | DoGetActiveAddress => snd (getActiveAddress w)
  | DoGetAllAddresses => snd (getAllAddresses env w)
  | DoSignMessage message => snd (signMessage env message w)
  | DoSignTransaction transaction => snd (signTransaction env transaction w)
  | DoAddAddressEvent listener => snd (addAddressEvent listener w)
  | DoDetach d e => snd (call_detacher d e w)
  | DoRemoveAddressEvent listener => snd (removeAddressEvent listener w)
  | DoCleanupListeners => snd (cleanupListeners w)
  | DoEncrypt data => snd (encrypt env data w)
  | DoDecrypt data => snd (decrypt env data w)
  end.

Definition perform_all (env : Env) (w : World) (actions : list Action)
    : World :=
  foldl (perform env) w actions.

(** An input that cannot move [account] away from the text [t]: a
    settlement, or an emission whose account is [t]. *)
Definition carries_account (t : string) (i : Input) : Prop :=
  match i with
  | Emit st => address_text <$> listener_new_account st = Some t
  | Settle _ _ => True
  end.

(** An adapter whose account is null while a late derivation has left a
    signer behind. *)
Definition late_signer_world : World :=
  react_all idle_world
    [Emit alice_state; Emit disconnected_state;
     Settle 1 (SignerSettled (Resolved (SignerRef 9)))].

(** How many of the subscribers are the account listener. *)
Definition count_account_listeners (subs : list (nat * Callback)) : nat :=
  length (filter (fun sub => is_account_listener (snd sub) = true) subs).

(** Subscription ids are pairwise distinct and below the next id. *)
Definition store_ids_fresh (w : World) : Prop :=
  store_ok w ∧ NoDup (fst <$> subscribers w).

(** The account field holds null or the text of an address. *)
Definition account_is_address (w : World) : Prop :=
  account w = None ∨ ∃ a, account w = Some (address_text a).

(** ** Data items

    [signDataItem] and [createDataItemSigner] talk to a part of the outside
    of their own: the factory of data-item signers and the signer it
    makes.  Their calls are recorded beside the world. *)

Inductive DataItem : Type :=
| ArDataItem (payload : string).

(** [AoSigner]: the function the factory returns. *)
Inductive AoSigner : Type :=
| AoSignerRef (ref : nat).

Inductive DataItemCall : Type :=
| CallCreateWagmiDataItemSigner
| CallDataItemSigner (s : AoSigner) (item : DataItem).

Record DataItemEnv : Type := mkDataItemEnv {
  createWagmiDataItemSigner :
    list Event → list DataItemCall → Outcome AoSigner;
  (* the [raw] field of what the signer resolves with *)
  dataItemSigner_raw :
    list Event → list DataItemCall → AoSigner → DataItem → Outcome bytes
}.

Definition H (A : Type) : Type :=
  World * list DataItemCall → Outcome A * (World * list DataItemCall).

Definition createDataItemSigner (denv : DataItemEnv) : H AoSigner :=
  fun h =>
    (createWagmiDataItemSigner denv (trace (fst h)) (snd h),
     (fst h, CallCreateWagmiDataItemSigner :: snd h)).

Definition signDataItem (denv : DataItemEnv) (dataItem : DataItem) : H bytes :=
  fun h =>
    match signer (fst h) with
    | None => (Rejected (Error "Signer not available"), h)
    | Some _ =>
      match createDataItemSigner denv h with
      | (Resolved dataItemSigner, h') =>
        (dataItemSigner_raw denv (trace (fst h')) (snd h')
           dataItemSigner dataItem,
         (fst h', CallDataItemSigner dataItemSigner dataItem :: snd h'))
      | (Rejected e, h') => (Rejected e, h')
      end
    end.

(** A factory that works, for the scenarios. *)
Definition working_data_items : DataItemEnv :=
  {| createWagmiDataItemSigner := fun _ _ => Resolved (AoSignerRef 1);
     dataItemSigner_raw := fun _ _ _ item =>
       match item with ArDataItem _ => Resolved [1; 2; 3]%Z end |}.

(** ** Method-level properties *)

Section MethodProperties.

Variable env : Env.


Lemma bind_rejected {A B} (m : M A) (k : A → M B) w e w' :
  m w = (Rejected e, w') → bind m k w = (Rejected e, w').
Proof. intros H. unfold bind. now rewrite H. Qed.

(** What [connect] does when the connector's routine throws. *)
Lemma connect_rejected_run w e :
  wagmi_connect env (trace w) = Rejected e →
  connect env w =
    (Resolved tt,
     log (ConsoleError
            (Some "[Arweave Wallet Kit] Error connecting to wallet:") e)
         (log CallConnect w)).
Proof.
  intros H. unfold connect, try_catch, bind, external, console_error, modify.
  now rewrite H.
Qed.


(** What [connect] does when the connector's routine resolves and the
    signer derivation throws: the account is already written. *)
Lemma connect_signer_rejected_run w accs e :
  wagmi_connect env (trace w) = Resolved accs →
  getEthersSigner env (CallConnect :: trace w) = Rejected e →
  connect env w =
    (Resolved tt,
     log (ConsoleError
            (Some "[Arweave Wallet Kit] Error connecting to wallet:") e)
       (log CallGetEthersSigner
          (with_account (address_text <$> head accs) (log CallConnect w)))).
Proof.
  intros H1 H2.
  unfold connect, try_catch, bind, external, console_error, modify. cbn.
  now rewrite H1, H2.
Qed.

Lemma disconnect_resolved_run w :
  wagmi_disconnect env (trace w) = Resolved tt →
  disconnect env w =
    (Resolved tt, with_signer None (with_account None (log CallDisconnect w))).
Proof.
  intros H. unfold disconnect, try_catch, bind, external, modify.
  now rewrite H.
Qed.


Lemma signMessage_no_signer w message :
  signer w = None →
  signMessage env message w = (Rejected (Error "Signer not available"), w).
Proof. intros H. unfold signMessage, bind, read, throw. now rewrite H. Qed.

Lemma signTransaction_no_signer w transaction :
  signer w = None →
  signTransaction env transaction w =
    (Rejected (Error "Signer not available"), w).
Proof. intros H. unfold signTransaction, bind, read, throw. now rewrite H. Qed.

End MethodProperties.

(** ** Disconnection *)



(** ** Signing *)

(** C3.  In every state whose [signer] is null, [signMessage] and
    [signTransaction] fail with the error "Signer not available", and the
    world (its trace of external calls included) is untouched: no signer or
    provider call is attempted. *)
Theorem signing_without_signer_fails_fast
    (env : Env) (w : World) (message : string)
    (transaction : TransactionRequest) :
  signer w = None →
  signMessage env message w = (Rejected (Error "Signer not available"), w) ∧
  signTransaction env transaction w
    = (Rejected (Error "Signer not available"), w).
Proof.
  intros H. split.
  - now apply signMessage_no_signer.
  - now apply signTransaction_no_signer.
Qed.

Lemma signing_without_signer_fails_fast_witness :
  signMessage refusing_env "gm" idle_world
    = (Rejected (Error "Signer not available"), idle_world) ∧
  signTransaction refusing_env (TxRequest "send 1 wei") idle_world
    = (Rejected (Error "Signer not available"), idle_world).
Proof.
  apply (signing_without_signer_fails_fast refusing_env idle_world).
  reflexivity.
Defined.

(** ** Capabilities this wallet type does not have *)

(** C5.  In every state, [dispatch], [addToken], [sign] and
    [getWalletNames] fail at once with an explicit error saying the method
    is not available on this wallet type, and leave the world (fields,
    subscriptions, trace) exactly as it was. *)
Theorem unsupported_methods_always_fail
    (w : World) (transaction : Transaction) (address : string)
    (options : option string) :
  (∃ e, dispatch transaction w = (Rejected e, w) ∧ not_supported_error e) ∧
  (∃ e, addToken address w = (Rejected e, w) ∧ not_supported_error e) ∧
  (∃ e, sign transaction options w = (Rejected e, w) ∧
        not_supported_error e) ∧
  (∃ e, getWalletNames w = (Rejected e, w) ∧ not_supported_error e).
Proof.
  repeat split; eexists; (split; [reflexivity|]); cbn.
  - now exists ".".
  - now exists EmptyString.
  - now exists " - use signDataItem instead".
  - now exists ".".
Qed.

(** ** Identity queries *)

(** C10.  While [account] is null, [getActiveAddress()] resolves to the
    empty text; [getAllAddresses()] resolves whatever the connector reports,
    and to the empty array when the connector reports no addresses. *)
Theorem identity_queries_when_unauthenticated (env : Env) (w : World) :
  account w = None →
  getActiveAddress w = (Resolved EmptyString, w) ∧
  (∃ addresses, fst (getAllAddresses env w) = Resolved addresses) ∧
  (wagmi_getAccount_addresses env (trace w) = None ∨
   wagmi_getAccount_addresses env (trace w) = Some [] →
   fst (getAllAddresses env w) = Resolved []).
Proof.
  intros H. split; [|split].
  - unfold getActiveAddress, bind, read, ret. now rewrite H.
  - eexists. reflexivity.
  - intros [H'|H']; unfold getAllAddresses; cbn; now rewrite H'.
Qed.

Lemma identity_queries_when_unauthenticated_witness :
  getActiveAddress idle_world = (Resolved EmptyString, idle_world) ∧
  (∃ addresses,
     fst (getAllAddresses refusing_env idle_world) = Resolved addresses) ∧
  (wagmi_getAccount_addresses refusing_env (trace idle_world) = None ∨
   wagmi_getAccount_addresses refusing_env (trace idle_world) = Some [] →
   fst (getAllAddresses refusing_env idle_world) = Resolved []).
Proof.
  apply (identity_queries_when_unauthenticated refusing_env idle_world).
  reflexivity.
Defined.

(** ** Address events *)

(** C9 (as stated, refuted).  The closure [addAddressEvent] returned is a
    listener that can be passed to [removeAddressEvent]; the call runs it,
    and the subscription made for host listener 7 is gone afterwards. *)
Lemma removeAddressEvent_runs_a_passed_detacher :
  subscribers (snd (addAddressEvent 7 idle_world))
    = [(0, AccountListener); (1, AddressListener 7)] ∧
  subscribers
    (snd (removeAddressEvent (DetacherListener (DetachSubscription 1))
            (snd (addAddressEvent 7 idle_world))))
    = [(0, AccountListener)].
Proof. split; vm_compute; reflexivity. Qed.

(** C9 (amended).  [removeAddressEvent(listener)] detaches nothing by
    itself: all it does is call the listener it was given once,
    synchronously, with a [CustomEvent] built from the current account
    (from the empty text when the account is null).  With a function of
    the host the subscriptions are the same afterwards and the call is the
    only thing that happened; with a closure returned by [addAddressEvent]
    the call does what that closure does, and ends its subscription. *)
Theorem removeAddressEvent_calls_listener_once
    (w : World) (listener : EventListener) :
  removeAddressEvent listener w =
    call_event_listener listener
      (NewCustomEvent (match account w with Some a => a | None => EmptyString end)) w
  ∧
  match listener with
  | HostEventListener l =>
    removeAddressEvent listener w =
      (Resolved tt,
       log (EventListenerCalled l
              (NewCustomEvent
                 (match account w with Some a => a | None => EmptyString end))) w) ∧
    subscribers (snd (removeAddressEvent listener w)) = subscribers w
  | DetacherListener (DetachSubscription id) =>
    fst (removeAddressEvent listener w) = Resolved tt ∧
    subscribers (snd (removeAddressEvent listener w))
      = filter (fun sub => fst sub ≠ id) (subscribers w)
  end.
Proof.
  unfold removeAddressEvent, bind, read. cbn.
  split; [now destruct (account w)|].
  destruct listener as [l|[id]]; cbn; destruct (account w); repeat split.
Qed.

(** ** The listener and the store's emissions *)

Section ListenerProperties.

Lemma emit_run_subscribers st w :
  emit st w = run_subscribers st (subscribers w) (with_store_state st w).
Proof. reflexivity. Qed.

Lemma run_subscribers_cons st sub subs w :
  run_subscribers st (sub :: subs) w =
    run_subscribers st subs (snd (run_callback (snd sub) st w)).
Proof. reflexivity. Qed.

Lemma react_all_cons w i inputs :
  react_all w (i :: inputs) = react_all (react w i) inputs.
Proof. reflexivity. Qed.

Lemma truthy_address_text a : truthy_string (address_text a) = true.
Proof. now destruct a. Qed.

Lemma account_listener_run st w :
  account_listener st w =
    (Resolved tt,
     match listener_new_account st with
     | Some a =>
       with_tasks (tasks w ++ [SignerThen])
         (log CallGetEthersSigner (with_account (Some (address_text a)) w))
     | None => with_signer None (with_account None w)
     end).
Proof.
  unfold account_listener, bind, modify, read, derive_signer_in_background.
  cbn. destruct (listener_new_account st) as [a|]; cbn; [|reflexivity].
  now rewrite truthy_address_text.
Qed.

Lemma listener_new_account_well_formed st :
  uid_well_formed st →
  address_text <$> listener_new_account st
    = first_account_of_active_connection st.
Proof.
  unfold uid_well_formed, listener_new_account,
    first_account_of_active_connection, active_connection,
    connection_first_account.
  intros Hwf. destruct (current st) as [uid|]; cbn; [|reflexivity].
  destruct uid as [|c uid]; [congruence|]. cbn.
  now destruct (connections st !! String c uid).
Qed.

(** Without an active connection the guard and the lookup agree that the
    new account is null, whatever the uid. *)
Lemma listener_new_account_none st :
  first_account_of_active_connection st = None →
  listener_new_account st = None.
Proof.
  unfold listener_new_account, first_account_of_active_connection,
    active_connection, connection_first_account.
  destruct (truthy (current st)); [|reflexivity].
  destruct (current st) as [uid|]; cbn; [|reflexivity].
  destruct (connections st !! uid) as [c|]; cbn; [|reflexivity].
  now destruct (head (accounts c)).
Qed.

Lemma address_listener_run l st w :
  address_listener l st w =
    (Resolved tt,
     match listener_new_account st with
     | Some a => log (ListenerCalled l (address_text a)) w
     | None => w
     end).
Proof.
  unfold address_listener, listener_new_account.
  destruct (truthy (current st)); [|reflexivity].
  destruct (connection_first_account st) as [a|]; [|reflexivity].
  now rewrite truthy_address_text.
Qed.

(** Callbacks never touch the store's subscriber list. *)
Lemma run_callback_subscribers cb st w :
  subscribers (snd (run_callback cb st w)) = subscribers w ∧
  next_subscription (snd (run_callback cb st w)) = next_subscription w.
Proof.
  destruct cb as [|l]; unfold run_callback.
  - rewrite account_listener_run. cbn.
    now destruct (listener_new_account st).
  - rewrite address_listener_run. cbn.
    now destruct (listener_new_account st).
Qed.

Lemma run_subscribers_subscribers st subs w :
  subscribers (run_subscribers st subs w) = subscribers w.
Proof.
  revert w. induction subs as [|sub subs IH]; intros w; [reflexivity|].
  rewrite run_subscribers_cons, IH. apply run_callback_subscribers.
Qed.

Lemma emit_subscribers st w : subscribers (emit st w) = subscribers w.
Proof. rewrite emit_run_subscribers. now rewrite run_subscribers_subscribers. Qed.

Lemma settle_subscribers i s w : subscribers (settle i s w) = subscribers w.
Proof.
  unfold settle. destruct (tasks w !! i) as [[]|]; destruct s as [[]|[]];
    try reflexivity; cbn.
  unfold sync_rest, bind, read, derive_signer_in_background, modify. cbn.
  now destruct (truthy (account w)).
Qed.

Lemma settle_account i s w : account (settle i s w) = account w.
Proof.
  unfold settle. destruct (tasks w !! i) as [[]|]; destruct s as [[]|[]];
    try reflexivity; cbn.
  unfold sync_rest, bind, read, derive_signer_in_background, modify. cbn.
  now destruct (truthy (account w)).
Qed.

Lemma react_subscribers w i : subscribers (react w i) = subscribers w.
Proof. destruct i; [apply emit_subscribers|apply settle_subscribers]. Qed.

Lemma react_all_subscribers inputs w :
  subscribers (react_all w inputs) = subscribers w.
Proof.
  revert w. induction inputs as [|i inputs IH]; intros w; [reflexivity|].
  rewrite react_all_cons, IH. apply react_subscribers.
Qed.

Lemma react_all_settlements_account inputs w :
  Forall is_settlement inputs →
  account (react_all w inputs) = account w.
Proof.
  intros H. revert w. induction H as [|i inputs Hi _ IH]; intros w;
    [reflexivity|].
  rewrite react_all_cons, IH.
  destruct i; [destruct Hi|apply settle_account].
Qed.

Lemma has_account_listener_installed subs :
  (∃ id, (id, AccountListener) ∈ subs) → has_account_listener subs = true.
Proof.
  intros [id Hid]. unfold has_account_listener.
  apply existsb_exists. exists (id, AccountListener). split; [|reflexivity].
  now apply list_elem_of_In.
Qed.

(** Running the subscribers' callbacks leaves in [account] what the account
    listener computes, as soon as that listener is among them. *)
Lemma run_subscribers_account st subs w :
  account (run_subscribers st subs w) =
    if has_account_listener subs
    then address_text <$> listener_new_account st
    else account w.
Proof.
  revert w. induction subs as [|[id cb] subs IH]; intros w; [reflexivity|].
  rewrite run_subscribers_cons, IH.
  change (has_account_listener ((id, cb) :: subs))
    with (is_account_listener cb || has_account_listener subs).
  destruct cb as [|l]; cbn [snd run_callback is_account_listener orb].
  - rewrite account_listener_run. cbn.
    destruct (has_account_listener subs); [reflexivity|].
    now destruct (listener_new_account st).
  - rewrite address_listener_run. cbn.
    destruct (has_account_listener subs); [reflexivity|].
    now destruct (listener_new_account st).
Qed.

Lemma emit_account st w :
  listener_installed w →
  account (emit st w) = address_text <$> listener_new_account st.
Proof.
  intros H. rewrite emit_run_subscribers, run_subscribers_account.
  now rewrite has_account_listener_installed.
Qed.

(** With a null new account the signer is cleared within the emission. *)
Lemma run_subscribers_signer_cleared st subs w :
  listener_new_account st = None →
  signer (run_subscribers st subs w) =
    if has_account_listener subs then None else signer w.
Proof.
  intros Hnone. revert w.
  induction subs as [|[id cb] subs IH]; intros w; [reflexivity|].
  rewrite run_subscribers_cons, IH.
  change (has_account_listener ((id, cb) :: subs))
    with (is_account_listener cb || has_account_listener subs).
  destruct cb as [|l]; cbn [snd run_callback is_account_listener orb].
  - rewrite account_listener_run, Hnone. cbn.
    now destruct (has_account_listener subs).
  - rewrite address_listener_run, Hnone. reflexivity.
Qed.

Lemma emit_signer_cleared st w :
  listener_installed w →
  listener_new_account st = None →
  signer (emit st w) = None.
Proof.
  intros H Hnone.
  rewrite emit_run_subscribers, (run_subscribers_signer_cleared _ _ _ Hnone).
  now rewrite has_account_listener_installed.
Qed.

(** Inputs that carry the account [t] leave an account that is [t]. *)
Lemma react_all_keeps_account inputs w t :
  account w = Some t →
  Forall (carries_account t) inputs →
  account (react_all w inputs) = Some t.
Proof.
  intros Hw H. revert w Hw.
  induction H as [|i inputs Hi _ IH]; intros w Hw; [exact Hw|].
  rewrite react_all_cons. apply IH. destruct i as [st|k s0]; cbn [react].
  - rewrite emit_run_subscribers, run_subscribers_account.
    destruct (has_account_listener (subscribers w)); [exact Hi|exact Hw].
  - now rewrite settle_account.
Qed.

Lemma connect_interleaved_nil env w :
  connect_interleaved env [] [] w = connect env w.
Proof.
  unfold connect_interleaved, connect, try_catch, bind, external,
    console_error, modify, CONNECT_ERROR. cbn.
  destruct (wagmi_connect env (trace w)); [|reflexivity]. cbn.
  now destruct (getEthersSigner env (CallConnect :: trace w)).
Qed.

End ListenerProperties.

(** ** Explicit connection *)

(** C1 (as stated, refuted).  The connector's routine resolves with one
    account, the signer derivation throws: [connect()] still resolves, the
    account is written, and the signer is null. *)
Lemma connect_may_leave_signer_null :
  wagmi_connect signerless_env (trace idle_world) = Resolved [alice] ∧
  fst (connect signerless_env idle_world) = Resolved tt ∧
  account (snd (connect signerless_env idle_world)) = Some "0xa11ce" ∧
  signer (snd (connect signerless_env idle_world)) = None.
Proof. repeat split; reflexivity. Qed.

(** C1 (amended).  When the connector's connect routine resolves with at
    least one account and the signer derivation that [connect()] awaits
    resolves too, then [connect()] resolves and, whatever reached the
    adapter while it was suspended, [signer] is the derived signer when it
    returns; [account] is the text of the first returned address, provided
    every emission that arrived while the derivation was awaited carried
    that same account. *)
Theorem connect_success_sets_account_and_signer
    (env : Env) (w : World) (during_connect during_derivation : list Input)
    (a : Address) (others : list Address) (sg : Signer) :
  wagmi_connect env (trace w) = Resolved (a :: others) →
  getEthersSigner env (trace (react_all (log CallConnect w) during_connect))
    = Resolved sg →
  Forall (carries_account (address_text a)) during_derivation →
  ∃ w', connect_interleaved env during_connect during_derivation w
          = (Resolved tt, w') ∧
        account w' = Some (address_text a) ∧
        signer w' = Some sg.
Proof.
  intros Hc Hs Hduring. unfold connect_interleaved. rewrite Hc.
  cbn [trace with_account]. rewrite Hs. eexists. split; [reflexivity|].
  split; [|reflexivity]. cbn [account with_signer].
  now apply react_all_keeps_account.
Qed.

Lemma connect_success_sets_account_and_signer_witness :
  ∃ w', connect_interleaved granting_env [Emit alice_state]
          [Emit alice_state; Settle 1 (SignerSettled (Resolved (SignerRef 2)))]
          idle_world = (Resolved tt, w') ∧
        account w' = Some (address_text alice) ∧
        signer w' = Some (SignerRef 1).
Proof.
  apply (connect_success_sets_account_and_signer granting_env idle_world
           [Emit alice_state]
           [Emit alice_state; Settle 1 (SignerSettled (Resolved (SignerRef 2)))]
           alice [bob] (SignerRef 1)).
  - reflexivity.
  - reflexivity.
  - apply Forall_cons. split; [vm_compute; reflexivity|].
    apply Forall_cons. split; [exact I|apply Forall_nil_2].
Defined.

(** C4 (as stated, refuted).  The connector's connect routine throws, and
    while [connect()] was suspended the store emitted a state without
    active connection: the listener ran, and the signer that was cached
    before the call is gone when [connect()] resolves. *)
Lemma connect_failure_lets_listener_clear_signer :
  wagmi_connect refusing_env (trace late_signer_world)
    = Rejected user_rejected ∧
  signer late_signer_world = Some (SignerRef 9) ∧
  fst (connect_interleaved refusing_env [Emit disconnected_state] []
         late_signer_world) = Resolved tt ∧
  signer (snd (connect_interleaved refusing_env [Emit disconnected_state] []
                 late_signer_world)) = None.
Proof. repeat split; vm_compute; reflexivity. Qed.

(** C4 (amended).  When the connector's connect routine throws,
    [connect()] resolves normally, the error is logged on the console, and
    [connect()] itself writes neither [account] nor [signer]: they are what
    the inputs that reached the listener during the suspension left, and
    exactly what they were before the call when none arrived. *)
Theorem connect_failure_is_swallowed
    (env : Env) (w : World) (during_connect during_derivation : list Input)
    (e : JsError) :
  wagmi_connect env (trace w) = Rejected e →
  ∃ w', connect_interleaved env during_connect during_derivation w
          = (Resolved tt, w') ∧
        account w' = account (react_all (log CallConnect w) during_connect) ∧
        signer w' = signer (react_all (log CallConnect w) during_connect) ∧
        trace w' =
          ConsoleError (Some CONNECT_ERROR) e
          :: trace (react_all (log CallConnect w) during_connect) ∧
        (during_connect = [] →
         account w' = account w ∧ signer w' = signer w ∧
         trace w' =
           ConsoleError (Some CONNECT_ERROR) e :: CallConnect :: trace w).
Proof.
  intros H. unfold connect_interleaved. rewrite H. eexists.
  split; [reflexivity|]. repeat split; subst; reflexivity.
Qed.

Lemma connect_failure_is_swallowed_witness :
  ∃ w', connect_interleaved refusing_env [] [] connected_world
          = (Resolved tt, w') ∧
        account w'
          = account (react_all (log CallConnect connected_world) []) ∧
        signer w'
          = signer (react_all (log CallConnect connected_world) []) ∧
        trace w' =
          ConsoleError (Some CONNECT_ERROR) user_rejected
          :: trace (react_all (log CallConnect connected_world) []) ∧
        (@nil Input = [] →
         account w' = account connected_world ∧
         signer w' = signer connected_world ∧
         trace w' =
           ConsoleError (Some CONNECT_ERROR) user_rejected
           :: CallConnect :: trace connected_world).
Proof.
  apply (connect_failure_is_swallowed refusing_env connected_world [] []
           user_rejected).
  reflexivity.
Defined.


Section AddressEventProperties.

Variable fn : ListenerId.

Lemma run_subscribers_snoc st subs sub w :
  run_subscribers st (subs ++ [sub]) w =
    snd (run_callback (snd sub) st (run_subscribers st subs w)).
Proof. unfold run_subscribers. now rewrite foldl_app. Qed.

(** The calls of [fn] one callback adds to the trace. *)
Lemma run_callback_calls cb st w :
  calls_of fn (trace (snd (run_callback cb st w))) =
    match cb with
    | AccountListener => calls_of fn (trace w)
    | AddressListener l =>
      if decide (l = fn) then
        match listener_new_account st with
        | Some a => address_text a :: calls_of fn (trace w)
        | None => calls_of fn (trace w)
        end
      else calls_of fn (trace w)
    end.
Proof.
  destruct cb as [|l]; cbn [run_callback].
  - rewrite account_listener_run. cbn [snd].
    now destruct (listener_new_account st).
  - rewrite address_listener_run. cbn [snd].
    destruct (listener_new_account st) as [a|]; cbn.
    + now destruct (decide (l = fn)).
    + now destruct (decide (l = fn)).
Qed.

(** Subscribers other than [fn] add no call of [fn]. *)
Lemma run_subscribers_calls_others st subs w :
  (∀ id, (id, AddressListener fn) ∉ subs) →
  calls_of fn (trace (run_subscribers st subs w)) = calls_of fn (trace w).
Proof.
  revert w. induction subs as [|[id cb] subs IH]; intros w Hfresh;
    [reflexivity|].
  rewrite run_subscribers_cons, IH.
  - rewrite run_callback_calls. cbn [snd]. destruct cb as [|l]; [reflexivity|].
    destruct (decide (l = fn)) as [->|]; [|reflexivity].
    exfalso. apply (Hfresh id). apply list_elem_of_here.
  - intros i Hi. apply (Hfresh i). now apply list_elem_of_further.
Qed.

Lemma filter_other_ids (subs : list (nat * Callback)) (id : nat) :
  Forall (fun sub => fst sub < id) subs →
  filter (fun sub => fst sub ≠ id) subs = subs.
Proof.
  induction 1 as [|sub subs Hsub _ IH]; [reflexivity|].
  rewrite filter_cons_True by lia. now rewrite IH.
Qed.

Lemma filter_other_ids_ne (subs : list (nat * Callback)) (id : nat) :
  Forall (fun sub => fst sub ≠ id) subs →
  filter (fun sub => fst sub ≠ id) subs = subs.
Proof.
  induction 1 as [|sub subs Hsub _ IH]; [reflexivity|].
  rewrite filter_cons_True by exact Hsub. now rewrite IH.
Qed.

Lemma addAddressEvent_run w :
  addAddressEvent fn w =
    (Resolved (DetachSubscription (next_subscription w)),
     log (Subscribed (next_subscription w) (AddressListener fn))
       (with_subscribers
          (subscribers w ++ [(next_subscription w, AddressListener fn)])
          (S (next_subscription w)) w)).
Proof. reflexivity. Qed.

(** The emission as the new subscription sees it: everybody else first,
    then the callback of [fn]. *)
Lemma emit_after_addAddressEvent_calls st w :
  not_subscribed fn w →
  calls_of fn (trace (emit st (snd (addAddressEvent fn w)))) =
    match listener_new_account st with
    | Some a => address_text a :: calls_of fn (trace w)
    | None => calls_of fn (trace w)
    end.
Proof.
  intros Hfresh. rewrite addAddressEvent_run, emit_run_subscribers.
  cbn [snd subscribers log with_subscribers].
  rewrite run_subscribers_snoc, run_callback_calls. cbn [snd].
  rewrite decide_True by reflexivity.
  rewrite run_subscribers_calls_others by exact Hfresh.
  reflexivity.
Qed.

Lemma detach_after_addAddressEvent w e :
  store_ok w →
  call_detacher (DetachSubscription (next_subscription w)) e
      (snd (addAddressEvent fn w)) =
    (Resolved tt,
     log (Unsubscribed (next_subscription w))
       (with_subscribers (subscribers w) (S (next_subscription w))
          (snd (addAddressEvent fn w)))).
Proof.
  intros Hok. rewrite addAddressEvent_run.
  unfold call_detacher, unsubscribe, modify.
  cbn [snd subscribers log with_subscribers next_subscription].
  rewrite filter_app, filter_other_ids by exact Hok.
  rewrite filter_cons_False by (cbn; intros H; now apply H).
  rewrite filter_nil, app_nil_r. reflexivity.
Qed.

End AddressEventProperties.

(** C6.  The constructor's listener being subscribed, after any inputs, an
    emission of the store, and any settlements of parked promises that
    follow it, [account] is the first account of the active connection of
    that most recent emission, or null if it has none; and when that account
    is null, the emission itself leaves [signer] null.  (The store's uids
    are non-empty texts.) *)
Theorem account_tracks_latest_emission
    (w : World) (before after : list Input) (st : StoreState) :
  listener_installed w →
  uid_well_formed st →
  Forall is_settlement after →
  account (react_all w (before ++ Emit st :: after))
    = first_account_of_active_connection st ∧
  (first_account_of_active_connection st = None →
   signer (react (react_all w before) (Emit st)) = None).
Proof.
  intros Hinst Hwf Hafter.
  assert (Hinst' : listener_installed (react_all w before)).
  { unfold listener_installed. now rewrite react_all_subscribers. }
  split.
  - unfold react_all. rewrite foldl_app. cbn [foldl].
    fold (react_all w before).
    fold (react_all (react (react_all w before) (Emit st)) after).
    rewrite react_all_settlements_account by exact Hafter.
    cbn [react]. rewrite emit_account by exact Hinst'.
    now apply listener_new_account_well_formed.
  - intros Hnone. cbn [react]. apply emit_signer_cleared; [exact Hinst'|].
    now apply listener_new_account_none.
Qed.

Lemma account_tracks_latest_emission_witness :
  account
    (react_all idle_world
       ([Emit alice_state; Settle 1 (SignerSettled (Resolved (SignerRef 1)))]
        ++ Emit disconnected_state
        :: [Settle 0 (ReconnectSettled (Resolved tt))]))
    = first_account_of_active_connection disconnected_state ∧
  (first_account_of_active_connection disconnected_state = None →
   signer
     (react
        (react_all idle_world
           [Emit alice_state;
            Settle 1 (SignerSettled (Resolved (SignerRef 1)))])
        (Emit disconnected_state)) = None).
Proof.
  apply (account_tracks_latest_emission idle_world).
  - exists 0. apply list_elem_of_here.
  - discriminate.
  - repeat constructor.
Defined.

(** C8 (as stated, refuted).  [addAddressEvent] has no guard against a
    listener that is subscribed already: registered a second time, host
    listener 7 is called twice by a single emission. *)
Lemma listener_registered_twice_is_called_twice :
  calls_of 7
    (trace (emit alice_state
              (snd (addAddressEvent 7 (snd (addAddressEvent 7 idle_world))))))
    = ["0xa11ce"; "0xa11ce"].
Proof. vm_compute. reflexivity. Qed.

(** C8 (amended).  After [addAddressEvent(fn)] with [fn] not subscribed
    before, and with the store's non-empty uids and fresh ids, one
    emission whose active connection has a first account calls [fn] exactly
    once, with the text of that account; an emission without an active
    connection, or whose active connection has no first account, does not
    call [fn]; and calling the closure that [addAddressEvent] returned
    removes this subscription, after which emissions no longer call [fn]
    and the other subscriptions are as before. *)
Theorem addAddressEvent_notifies_listener (w : World) (fn : ListenerId) :
  not_subscribed fn w →
  store_ok w →
  ∃ d w1,
    addAddressEvent fn w = (Resolved d, w1) ∧
    (∀ st uid c a others,
       current st = Some uid → uid ≠ EmptyString →
       connections st !! uid = Some c → accounts c = a :: others →
       calls_of fn (trace (emit st w1))
         = address_text a :: calls_of fn (trace w)) ∧
    (∀ st,
       first_account_of_active_connection st = None →
       calls_of fn (trace (emit st w1)) = calls_of fn (trace w)) ∧
    (∀ e, ∃ w2,
       call_detacher d e w1 = (Resolved tt, w2) ∧
       subscribers w2 = subscribers w ∧
       ∀ st, calls_of fn (trace (emit st w2)) = calls_of fn (trace w)).
Proof.
  intros Hfresh Hok.
  exists (DetachSubscription (next_subscription w)),
    (snd (addAddressEvent fn w)).
  split; [reflexivity|]. split; [|split].
  - intros st uid c a others Hcur Huid Hconn Hacc.
    rewrite emit_after_addAddressEvent_calls by exact Hfresh.
    unfold listener_new_account, connection_first_account.
    rewrite Hcur, Hconn, Hacc. destruct uid; [congruence|reflexivity].
  - intros st Hnone.
    rewrite emit_after_addAddressEvent_calls by exact Hfresh.
    now rewrite listener_new_account_none.
  - intros e. eexists. split; [now apply detach_after_addAddressEvent|].
    split; [reflexivity|]. intros st.
    rewrite emit_run_subscribers. cbn [subscribers log with_subscribers].
    now rewrite run_subscribers_calls_others.
Qed.

Lemma addAddressEvent_notifies_listener_witness :
  ∃ d w1,
    addAddressEvent 7 idle_world = (Resolved d, w1) ∧
    (∀ st uid c a others,
       current st = Some uid → uid ≠ EmptyString →
       connections st !! uid = Some c → accounts c = a :: others →
       calls_of 7 (trace (emit st w1))
         = address_text a :: calls_of 7 (trace idle_world)) ∧
    (∀ st,
       first_account_of_active_connection st = None →
       calls_of 7 (trace (emit st w1)) = calls_of 7 (trace idle_world)) ∧
    (∀ e, ∃ w2,
       call_detacher d e w1 = (Resolved tt, w2) ∧
       subscribers w2 = subscribers idle_world ∧
       ∀ st, calls_of 7 (trace (emit st w2))
               = calls_of 7 (trace idle_world)).
Proof.
  apply (addAddressEvent_notifies_listener idle_world 7).
  - intros id H. apply list_elem_of_singleton in H. discriminate.
  - apply Forall_cons. split; [cbn; lia|apply Forall_nil_2].
Defined.

(** An empty uid is falsy: the guard of both callbacks then treats the state
    as disconnected, whatever its connections hold.  The connector never
    hands out such a uid. *)
Remark empty_uid_reads_as_disconnected (conns : gmap string Connection) :
  listener_new_account
    {| current := Some EmptyString; connections := conns |} = None.
Proof. reflexivity. Qed.

(** ** The text codec *)

Section Codec.

Local Open Scope Z_scope.

Lemma land_shiftl_low q x : 0 <= x < 64 → Z.land (Z.shiftl q 6) x = 0.
Proof.
  intros Hx. apply Z.bits_inj'. intros n Hn.
  rewrite Z.land_spec, Z.bits_0.
  destruct (Z.lt_ge_cases n 6) as [Hlt|Hge].
  - now rewrite Z.shiftl_spec_low.
  - replace x with (x mod 2 ^ 6) by (apply Z.mod_small; lia).
    rewrite Z.mod_pow2_bits_high by lia. apply andb_false_r.
Qed.

Lemma lor_shiftl_low q x :
  0 <= x < 64 → Z.lor (Z.shiftl q 6) x = q * 64 + x.
Proof.
  intros Hx. rewrite <- Z.lxor_lor by now apply land_shiftl_low.
  rewrite <- Z.add_nocarry_lxor by now apply land_shiftl_low.
  now rewrite Z.shiftl_mul_pow2 by lia.
Qed.

Lemma lor_continuation x : 0 <= x < 64 → Z.lor 0x80 x = 128 + x.
Proof.
  intros Hx. change (Z.lor 0x80 x) with (Z.lor (Z.shiftl 2 6) x).
  rewrite lor_shiftl_low by lia. lia.
Qed.

Lemma land_low6 c : Z.land c 0x3F = c mod 64.
Proof. change 0x3F with (Z.ones 6). now rewrite Z.land_ones. Qed.

Lemma land_low5 c : Z.land c 0x1F = c mod 32.
Proof. change 0x1F with (Z.ones 5). now rewrite Z.land_ones. Qed.

Lemma land_low4 c : Z.land c 0xF = c mod 16.
Proof. change 0xF with (Z.ones 4). now rewrite Z.land_ones. Qed.

Lemma land_low3 c : Z.land c 0x7 = c mod 8.
Proof. change 0x7 with (Z.ones 3). now rewrite Z.land_ones. Qed.

Lemma shiftr6 c : Z.shiftr c 6 = c / 64.
Proof. now rewrite Z.shiftr_div_pow2. Qed.

Lemma shiftr12 c : Z.shiftr c 12 = c / 4096.
Proof. now rewrite Z.shiftr_div_pow2. Qed.

Lemma shiftr18 c : Z.shiftr c 18 = c / 262144.
Proof. now rewrite Z.shiftr_div_pow2. Qed.

Ltac divmod := Z.div_mod_to_equations; lia.

Ltac ranges :=
  unfold in_range;
  repeat match goal with
  | |- context [Z.leb ?a ?b] => destruct (Z.leb_spec a b); try lia
  end;
  cbn [andb negb].

Lemma in_range_true lo hi b : lo <= b <= hi → in_range lo hi b = true.
Proof. intros H. ranges; reflexivity. Qed.

Lemma in_range_false lo hi b : b < lo ∨ hi < b → in_range lo hi b = false.
Proof. intros H. ranges; reflexivity. Qed.

(** The encoder in arithmetic form. *)
Lemma utf8_encode_code_point_arith c :
  0 <= c <= 0x10FFFF →
  utf8_encode_code_point c =
    if c <=? 0x7F then [c]
    else if c <=? 0x7FF then [c / 64 + 192; 128 + c mod 64]
    else if c <=? 0xFFFF then
      [c / 4096 + 224; 128 + c / 64 mod 64; 128 + c mod 64]
    else
      [c / 262144 + 240; 128 + c / 4096 mod 64; 128 + c / 64 mod 64;
       128 + c mod 64].
Proof.
  intros Hc. unfold utf8_encode_code_point.
  rewrite !shiftr6, !shiftr12, !shiftr18, !land_low6.
  rewrite !lor_continuation by divmod.
  ranges; reflexivity.
Qed.

Lemma utf8_lead_1 b : 0 <= b <= 0x7F → utf8_lead b = ([b], utf8_start).
Proof. intros H. unfold utf8_lead. now rewrite in_range_true. Qed.

Lemma utf8_lead_2 b :
  0xC2 <= b <= 0xDF →
  utf8_lead b =
    ([], {| code_point := b mod 32; bytes_seen := 0; bytes_needed := 1;
            lower_boundary := 0x80; upper_boundary := 0xBF |}).
Proof.
  intros H. unfold utf8_lead.
  rewrite in_range_false, in_range_true by lia. now rewrite land_low5.
Qed.

Lemma utf8_lead_3 b :
  0xE0 <= b <= 0xEF →
  utf8_lead b =
    ([], {| code_point := b mod 16; bytes_seen := 0; bytes_needed := 2;
            lower_boundary := if b =? 0xE0 then 0xA0 else 0x80;
            upper_boundary := if b =? 0xED then 0x9F else 0xBF |}).
Proof.
  intros H. unfold utf8_lead.
  rewrite in_range_false, in_range_false, in_range_true by lia.
  now rewrite land_low4.
Qed.

Lemma utf8_lead_4 b :
  0xF0 <= b <= 0xF4 →
  utf8_lead b =
    ([], {| code_point := b mod 8; bytes_seen := 0; bytes_needed := 3;
            lower_boundary := if b =? 0xF0 then 0x90 else 0x80;
            upper_boundary := if b =? 0xF4 then 0x8F else 0xBF |}).
Proof.
  intros H. unfold utf8_lead.
  rewrite in_range_false, in_range_false, in_range_false, in_range_true
    by lia.
  now rewrite land_low3.
Qed.

(** An awaited continuation byte that is not the last one. *)
Lemma utf8_continue cp seen needed lo hi b :
  0x80 <= lo → hi <= 0xBF → lo <= b <= hi →
  S seen ≠ S needed →
  utf8_handler
    {| code_point := cp; bytes_seen := seen; bytes_needed := S needed;
       lower_boundary := lo; upper_boundary := hi |} b =
    ([], {| code_point := cp * 64 + b mod 64; bytes_seen := S seen;
            bytes_needed := S needed;
            lower_boundary := 0x80; upper_boundary := 0xBF |}).
Proof.
  intros Hlo Hhi Hb Hne. unfold utf8_handler.
  cbn [bytes_needed bytes_seen code_point lower_boundary upper_boundary].
  rewrite in_range_true by lia. cbn [negb].
  rewrite land_low6, lor_shiftl_low by divmod.
  destruct (Nat.eqb_spec (S seen) (S needed)); [contradiction|reflexivity].
Qed.

(** The last awaited continuation byte completes the code point. *)
Lemma utf8_complete cp seen lo hi b :
  0x80 <= lo → hi <= 0xBF → lo <= b <= hi →
  utf8_handler
    {| code_point := cp; bytes_seen := seen; bytes_needed := S seen;
       lower_boundary := lo; upper_boundary := hi |} b =
    ([cp * 64 + b mod 64], utf8_start).
Proof.
  intros Hlo Hhi Hb. unfold utf8_handler.
  cbn [bytes_needed bytes_seen code_point lower_boundary upper_boundary].
  rewrite in_range_true by lia. cbn [negb].
  rewrite land_low6, lor_shiftl_low by divmod.
  now rewrite Nat.eqb_refl.
Qed.

Lemma utf8_run_cons st b rest :
  utf8_run st (b :: rest) =
    (fst (utf8_handler st b) ++ utf8_run (snd (utf8_handler st b)) rest)%list.
Proof. cbn [utf8_run]. now destruct (utf8_handler st b). Qed.

Lemma utf8_handler_start b : utf8_handler utf8_start b = utf8_lead b.
Proof. reflexivity. Qed.

(** Decoding the encoding of a scalar value gives it back and leaves the
    decoder in its start state. *)
Lemma utf8_decode_encoded c rest :
  scalar_value c →
  utf8_run utf8_start (utf8_encode_code_point c ++ rest)%list
    = c :: utf8_run utf8_start rest.
Proof.
  intros [Hc Hns]. rewrite utf8_encode_code_point_arith by exact Hc.
  destruct (Z.leb_spec c 0x7F) as [H1|H1].
  { cbn [app]. rewrite utf8_run_cons, utf8_handler_start, utf8_lead_1 by lia.
    reflexivity. }
  destruct (Z.leb_spec c 0x7FF) as [H2|H2].
  { cbn [app].
    rewrite utf8_run_cons, utf8_handler_start, utf8_lead_2 by divmod.
    cbn [fst snd app].
    rewrite utf8_run_cons, utf8_complete by divmod.
    cbn [fst snd app]. f_equal. divmod. }
  destruct (Z.leb_spec c 0xFFFF) as [H3|H3].
  { cbn [app].
    rewrite utf8_run_cons, utf8_handler_start, utf8_lead_3 by divmod.
    cbn [fst snd app].
    rewrite utf8_run_cons, utf8_continue;
      [| destruct (Z.eqb_spec (c / 4096 + 224) 0xE0); lia
       | destruct (Z.eqb_spec (c / 4096 + 224) 0xED); lia
       | destruct (Z.eqb_spec (c / 4096 + 224) 0xE0);
         destruct (Z.eqb_spec (c / 4096 + 224) 0xED); divmod
       | lia ].
    cbn [fst snd app].
    rewrite utf8_run_cons, utf8_complete by divmod.
    cbn [fst snd app]. f_equal. divmod. }
  cbn [app].
  rewrite utf8_run_cons, utf8_handler_start, utf8_lead_4 by divmod.
  cbn [fst snd app].
  rewrite utf8_run_cons, utf8_continue;
    [| destruct (Z.eqb_spec (c / 262144 + 240) 0xF0); lia
     | destruct (Z.eqb_spec (c / 262144 + 240) 0xF4); lia
     | destruct (Z.eqb_spec (c / 262144 + 240) 0xF0);
       destruct (Z.eqb_spec (c / 262144 + 240) 0xF4); divmod
     | lia ].
  cbn [fst snd app].
  rewrite utf8_run_cons, utf8_continue by (try divmod; lia).
  cbn [fst snd app].
  rewrite utf8_run_cons, utf8_complete by divmod.
  cbn [fst snd app]. f_equal. divmod.
Qed.

End Codec.

(** ** Confidentiality: [encrypt] then [decrypt] *)

Section RoundTrip.

Local Open Scope Z_scope.

Lemma to_scalar_value_scalar c : scalar_value c → to_scalar_value c = c.
Proof.
  intros [_ Hns]. unfold to_scalar_value, is_surrogate.
  rewrite in_range_false; [reflexivity|lia].
Qed.

Lemma utf8_run_encode text :
  Forall scalar_value text →
  utf8_run utf8_start (TextEncoder_encode text) = text.
Proof.
  induction 1 as [|c text Hc _ IH]; [reflexivity|].
  unfold TextEncoder_encode. cbn [flat_map].
  rewrite to_scalar_value_scalar by exact Hc.
  rewrite utf8_decode_encoded by exact Hc.
  f_equal. exact IH.
Qed.

(** Decoding inverts encoding on plain texts. *)
Lemma TextDecoder_decode_encode text :
  plain_text text → TextDecoder_decode (TextEncoder_encode text) = text.
Proof.
  intros [Hsv Hbom]. unfold TextDecoder_decode.
  rewrite utf8_run_encode by exact Hsv.
  destruct text as [|c text]; [reflexivity|]. cbn [strip_bom].
  destruct (Z.eqb_spec c BOM) as [->|]; [|reflexivity].
  now contradiction Hbom.
Qed.



Lemma TextEncoder_encode_app (s t : jsstring) :
  TextEncoder_encode (s ++ t)%list
    = (TextEncoder_encode s ++ TextEncoder_encode t)%list.
Proof. unfold TextEncoder_encode. apply flat_map_app. Qed.

Lemma hex_value_digit d : 0 <= d < 16 → hex_value (hex_digit d) = Some d.
Proof.
  intros Hd.
  assert (d = 0 ∨ d = 1 ∨ d = 2 ∨ d = 3 ∨ d = 4 ∨ d = 5 ∨ d = 6 ∨ d = 7 ∨
          d = 8 ∨ d = 9 ∨ d = 10 ∨ d = 11 ∨ d = 12 ∨ d = 13 ∨ d = 14 ∨
          d = 15) as H by lia.
  repeat (destruct H as [->|H]; [reflexivity|]). now subst.
Qed.

Lemma append_String a s t :
  (String a s ++ t)%string = String a (s ++ t)%string.
Proof. reflexivity. Qed.

Lemma append_EmptyString t : (EmptyString ++ t)%string = t.
Proof. reflexivity. Qed.

Lemma unhex_pairs_byte b rest :
  is_byte b →
  unhex_pairs (padStart2 (toString16 b) ++ rest)%string = b :: unhex_pairs rest.
Proof.
  intros Hb. unfold is_byte in Hb. unfold toString16.
  destruct (Z.ltb_spec b 16) as [Hlt|Hge]; cbn [padStart2];
    rewrite !append_String, append_EmptyString; cbn [unhex_pairs].
  - rewrite hex_value_digit by lia. cbn [hex_value]. f_equal.
  - rewrite !hex_value_digit by (Z.div_mod_to_equations; lia).
    f_equal. Z.div_mod_to_equations; lia.
Qed.

(** Reading the hex framing back gives the bytes. *)
Lemma unhex_frame_hex_frame data :
  Forall is_byte data → unhex_frame (hex_frame data) = data.
Proof.
  intros H. unfold hex_frame.
  rewrite !append_String, append_EmptyString. cbn [unhex_frame].
  induction H as [|b data Hb _ IH]; [reflexivity|].
  cbn [foldr]. rewrite unhex_pairs_byte by exact Hb. now rewrite IH.
Qed.

End RoundTrip.

Section EncryptDecrypt.

Variable env : Env.


Lemma decrypt_run data w sg :
  getEthersSigner env (trace w) = Resolved sg →
  decrypt env data w =
    (provider_send env (CallGetEthersSigner :: trace w) sg
       (EthDecrypt
          (hex_frame (TextEncoder_encode (TextDecoder_decode data)))
          (default EmptyString (account w))),
     log (CallProviderSend sg
            (EthDecrypt
               (hex_frame (TextEncoder_encode (TextDecoder_decode data)))
               (default EmptyString (account w))))
       (log CallGetEthersSigner w)).
Proof.
  intros Hsg. unfold decrypt, getActiveAddress, bind, external, read, ret.
  now rewrite Hsg.
Qed.

End EncryptDecrypt.



(** Two byte sequences that are no UTF-8 decode to the same text, so no
    outside whatsoever can tell them apart after [encrypt]. *)
Lemma round_trip_collision (env : Env) (w : World) :
  encrypt_then_decrypt env [0xFF%Z] w = encrypt_then_decrypt env [0xFE%Z] w.
Proof. reflexivity. Qed.


(** A leading byte order mark is lost as well. *)
Lemma round_trip_strips_byte_order_mark :
  fst (encrypt_then_decrypt echo_env [0xEF; 0xBB; 0xBF; 0x41]%Z idle_world)
    = Resolved (ReplyBytes [0x41%Z]).
Proof. reflexivity. Qed.



(** ** Construction *)

Lemma constructor_on_empty_store (st : StoreState) :
  constructor st = constructor_on st [] 0.
Proof. reflexivity. Qed.

(** Constructing the adapter leaves both fields null, parks the rest of
    [sync], and installs the account listener as the store's only
    subscriber. *)
Lemma constructor_state (st : StoreState) :
  account (constructor st) = None ∧
  signer (constructor st) = None ∧
  tasks (constructor st) = [SyncResume] ∧
  subscribers (constructor st) = [(0, AccountListener)] ∧
  unsubscribeAccount (constructor st) = Some 0 ∧
  listener_installed (constructor st) ∧
  store_ok (constructor st).
Proof.
  repeat split.
  - exists 0. apply list_elem_of_here.
  - apply Forall_cons. split; [cbn; lia|apply Forall_nil_2].
Qed.

(** With no prior session ([reconnect] finds nothing and no emission
    arrives), the adapter is still unauthenticated once [sync] has run to
    its end. *)
Lemma constructor_without_session (st : StoreState) :
  account (settle 0 (ReconnectSettled (Resolved tt)) (constructor st)) = None ∧
  signer (settle 0 (ReconnectSettled (Resolved tt)) (constructor st)) = None ∧
  tasks (settle 0 (ReconnectSettled (Resolved tt)) (constructor st)) = [].
Proof. repeat split. Qed.

(** One emission on a connected store, as the address listener sees it. *)
Example address_listener_alice :
  calls_of 7
    (trace (emit alice_state (snd (addAddressEvent 7 idle_world))))
    = ["0xa11ce"].
Proof. vm_compute. reflexivity. Qed.

(** ** What every history keeps *)

Section Histories.

Variable env : Env.

(** Unfold a method body and split on what the outside answers. *)
Ltac run_method :=
  unfold sync, sync_rest, connect, disconnect, getActiveAddress,
    getAllAddresses, signMessage, signTransaction, removeAddressEvent,
    encrypt, decrypt, getActiveAddress, try_catch, bind, external,
    console_error, derive_signer_in_background, modify, read, ret, throw;
  cbn;
  repeat match goal with
  | |- context [match ?x with _ => _ end] =>
    lazymatch x with
    | context [match _ with _ => _ end] => fail
    | _ => destruct x eqn:?; cbn
    end
  end.

(** The methods that do not subscribe or unsubscribe leave the store's
    subscriber list alone. *)
Lemma plain_methods_subscribers w a :
  match a with
  | DoReceive _ | DoAddAddressEvent _ | DoDetach _ _ | DoCleanupListeners
  | DoRemoveAddressEvent _ =>
    True
  | _ =>
    subscribers (perform env w a) = subscribers w ∧
    next_subscription (perform env w a) = next_subscription w
  end.
Proof.
  destruct a; try exact I; cbn [perform]; run_method; split; reflexivity.
Qed.

Lemma run_callback_next cb st w :
  next_subscription (snd (run_callback cb st w)) = next_subscription w.
Proof. apply run_callback_subscribers. Qed.

Lemma run_subscribers_next st subs w :
  next_subscription (run_subscribers st subs w) = next_subscription w.
Proof.
  revert w. induction subs as [|sub subs IH]; intros w; [reflexivity|].
  rewrite run_subscribers_cons, IH. apply run_callback_next.
Qed.

Lemma react_next w i : next_subscription (react w i) = next_subscription w.
Proof.
  destruct i as [st|k s]; cbn [react].
  - rewrite emit_run_subscribers. now rewrite run_subscribers_next.
  - unfold settle. destruct (tasks w !! k) as [[]|]; destruct s as [[]|[]];
      try reflexivity; cbn.
    unfold sync_rest, bind, read, derive_signer_in_background, modify. cbn.
    now destruct (truthy (account w)).
Qed.

Lemma store_ids_fresh_same w w' :
  subscribers w' = subscribers w →
  next_subscription w' = next_subscription w →
  store_ids_fresh w → store_ids_fresh w'.
Proof. unfold store_ids_fresh, store_ok. intros -> ->. tauto. Qed.

Lemma store_ids_fresh_subscribe cb w :
  store_ids_fresh w → store_ids_fresh (snd (subscribe cb w)).
Proof.
  intros [Hok Hnd]. unfold store_ids_fresh, store_ok, subscribe.
  cbn [snd subscribers next_subscription log with_subscribers]. split.
  - apply Forall_app. split.
    + eapply Forall_impl; [exact Hok|]. cbn. intros sub Hsub. lia.
    + apply Forall_cons. split; [cbn; lia|apply Forall_nil_2].
  - rewrite fmap_app. apply NoDup_app. split; [exact Hnd|]. split.
    + intros id Hid Hin. apply list_elem_of_singleton in Hin. subst id.
      apply list_elem_of_fmap in Hid as [sub [Heq Hsub]].
      unfold store_ok in Hok. rewrite Forall_forall in Hok.
      specialize (Hok sub Hsub). cbn in Heq. lia.
    + apply NoDup_singleton.
Qed.

Lemma NoDup_ids_filter (P : nat * Callback → Prop)
    `{∀ sub, Decision (P sub)} (subs : list (nat * Callback)) :
  NoDup (fst <$> subs) → NoDup (fst <$> filter P subs).
Proof.
  induction subs as [|sub subs IH]; [intros; apply NoDup_nil_2|].
  rewrite fmap_cons, NoDup_cons. intros [Hnotin Hnd].
  rewrite filter_cons. destruct (decide (P sub)); [|now apply IH].
  rewrite fmap_cons, NoDup_cons. split; [|now apply IH].
  intros Hin. apply Hnotin.
  apply list_elem_of_fmap in Hin as [sub' [Heq Hsub']].
  apply list_elem_of_filter in Hsub' as [_ Hsub'].
  apply list_elem_of_fmap. now exists sub'.
Qed.

Lemma store_ids_fresh_unsubscribe id w :
  store_ids_fresh w → store_ids_fresh (snd (unsubscribe id w)).
Proof.
  intros [Hok Hnd]. unfold store_ids_fresh, store_ok, unsubscribe, modify.
  cbn [snd subscribers next_subscription log with_subscribers]. split.
  - apply Forall_forall. intros sub Hsub.
    apply list_elem_of_filter in Hsub as [_ Hsub].
    unfold store_ok in Hok. rewrite Forall_forall in Hok. now apply Hok.
  - now apply NoDup_ids_filter.
Qed.

Lemma perform_store_ids_fresh w a :
  store_ids_fresh w → store_ids_fresh (perform env w a).
Proof.
  intros Hw.
  pose proof (plain_methods_subscribers w a) as Hplain.
  destruct a;
    try (apply (store_ids_fresh_same w);
         [apply Hplain|apply Hplain|exact Hw]);
    cbn [perform].
  - apply (store_ids_fresh_same w); [apply react_subscribers|apply react_next|
      exact Hw].
  - exact (store_ids_fresh_subscribe (AddressListener listener) w Hw).
  - destruct d as [id]. now apply store_ids_fresh_unsubscribe.
  - unfold removeAddressEvent, bind, read. cbn.
    destruct listener as [l|[id]]; cbn [call_event_listener call_detacher].
    + exact (store_ids_fresh_same w _ eq_refl eq_refl Hw).
    + now apply store_ids_fresh_unsubscribe.
  - unfold cleanupListeners, bind, read.
    destruct (unsubscribeAccount w) as [id|]; [|exact Hw].
    now apply store_ids_fresh_unsubscribe.
Qed.

Lemma constructor_store_ids_fresh st : store_ids_fresh (constructor st).
Proof.
  split.
  - apply Forall_cons. split; [cbn; lia|apply Forall_nil_2].
  - cbn. apply NoDup_singleton.
Qed.

Lemma perform_all_store_ids_fresh w actions :
  store_ids_fresh w → store_ids_fresh (perform_all env w actions).
Proof.
  revert w. induction actions as [|a actions IH]; intros w Hw; [exact Hw|].
  apply IH. now apply perform_store_ids_fresh.
Qed.

Lemma filter_drops_at_most_one (subs : list (nat * Callback)) (id : nat) :
  NoDup (fst <$> subs) →
  (length subs ≤ S (length (filter (fun sub => fst sub ≠ id) subs)))%nat.
Proof.
  induction subs as [|sub subs IH]; [cbn; lia|].
  rewrite fmap_cons, NoDup_cons. intros [Hnotin Hnd].
  rewrite filter_cons. destruct (decide (fst sub ≠ id)) as [Hne|Heq].
  - cbn [length]. specialize (IH Hnd). lia.
  - assert (fst sub = id) as Hid by (destruct (decide (fst sub = id)); tauto).
    rewrite filter_other_ids_ne; [cbn [length]; lia|].
    apply Forall_forall. intros sub' Hsub' Heq'. apply Hnotin.
    apply list_elem_of_fmap. exists sub'. split; [congruence|exact Hsub'].
Qed.

Lemma address_text_option_is_address (o : option Address) w :
  account w = address_text <$> o → account_is_address w.
Proof.
  intros H. destruct o as [a|]; [right; now exists a|now left].
Qed.

Lemma emit_account_is_address st w :
  account_is_address w → account_is_address (emit st w).
Proof.
  intros Hw. pose proof (run_subscribers_account st (subscribers w)
    (with_store_state st w)) as H. rewrite <- emit_run_subscribers in H.
  destruct (has_account_listener (subscribers w)).
  - now apply (address_text_option_is_address (listener_new_account st)).
  - unfold account_is_address. rewrite H. exact Hw.
Qed.

Lemma perform_account_is_address w a :
  account_is_address w → account_is_address (perform env w a).
Proof.
  intros Hw. destruct a; cbn [perform].
  - destruct i as [st|k s]; cbn [react].
    + now apply emit_account_is_address.
    + unfold account_is_address. now rewrite settle_account.
  - run_method; exact Hw.
  - run_method; try exact Hw;
      match goal with
      | |- account_is_address ?w' =>
        apply (address_text_option_is_address (head value)); reflexivity
      end.
  - run_method; [now left|exact Hw].
  - run_method; exact Hw.
  - run_method; exact Hw.
  - run_method; exact Hw.
  - run_method; exact Hw.
  - exact Hw.
  - destruct d; exact Hw.
  - destruct listener as [l|[id]]; exact Hw.
  - unfold cleanupListeners, bind, read.
    destruct (unsubscribeAccount w); exact Hw.
  - run_method; exact Hw.
  - run_method; exact Hw.
Qed.

Lemma perform_all_account_is_address w actions :
  account_is_address w → account_is_address (perform_all env w actions).
Proof.
  revert w. induction actions as [|a actions IH]; intros w Hw; [exact Hw|].
  apply IH. now apply perform_account_is_address.
Qed.

End Histories.

(** ** Construction and [sync] *)

(** X1.  Constructing the adapter over a store that may already have
    subscribers leaves both fields null, keeps those subscribers, adds the
    account listener after them under the store's next id and keeps that
    id as the handle, and parks the rest of [sync].  If the parked
    [reconnect] settles before the store emits, the adapter is still
    unauthenticated, whichever way it settles; and an emission that
    arrives first is tracked. *)
Theorem constructor_leaves_adapter_unauthenticated
    (st st' : StoreState) (subs : list (nat * Callback)) (next : nat)
    (o : Outcome unit) :
  account (constructor_on st subs next) = None ∧
  signer (constructor_on st subs next) = None ∧
  tasks (constructor_on st subs next) = [SyncResume] ∧
  subscribers (constructor_on st subs next)
    = (subs ++ [(next, AccountListener)])%list ∧
  unsubscribeAccount (constructor_on st subs next) = Some next ∧
  account (settle 0 (ReconnectSettled o) (constructor_on st subs next))
    = None ∧
  signer (settle 0 (ReconnectSettled o) (constructor_on st subs next))
    = None ∧
  account (emit st' (constructor_on st subs next))
    = address_text <$> listener_new_account st'.
Proof.
  destruct o as [[]|e]; repeat split; apply emit_account;
    exists next; apply elem_of_app; right; apply list_elem_of_here.
Qed.


(** ** Explicit connection, continued *)

(** X3.  When the connector's connect routine resolves and the awaited
    signer derivation throws, [connect()] resolves normally and logs the
    error; [account] has already been written and is not rolled back (it is
    the new first address, provided every emission that arrived while the
    derivation was awaited carried that account), and [connect()] has not
    written [signer]: with nothing arriving during the suspensions it is
    the signer cached before. *)
Theorem connect_keeps_old_signer_when_derivation_fails
    (env : Env) (w : World) (during_connect during_derivation : list Input)
    (a : Address) (others : list Address) (e : JsError) :
  wagmi_connect env (trace w) = Resolved (a :: others) →
  getEthersSigner env (trace (react_all (log CallConnect w) during_connect))
    = Rejected e →
  Forall (carries_account (address_text a)) during_derivation →
  ∃ w', connect_interleaved env during_connect during_derivation w
          = (Resolved tt, w') ∧
        account w' = Some (address_text a) ∧
        head (trace w') = Some (ConsoleError (Some CONNECT_ERROR) e) ∧
        (during_connect = [] → during_derivation = [] →
         signer w' = signer w).
Proof.
  intros Hc Hs Hduring. unfold connect_interleaved. rewrite Hc.
  cbn [trace with_account]. rewrite Hs. eexists. split; [reflexivity|].
  split; [|split; [reflexivity|]].
  - cbn [account log console_error modify snd].
    now apply react_all_keeps_account.
  - intros -> ->. reflexivity.
Qed.

Lemma connect_keeps_old_signer_when_derivation_fails_witness :
  ∃ w', connect_interleaved signerless_env [] [] connected_world
          = (Resolved tt, w') ∧
        account w' = Some (address_text alice) ∧
        head (trace w')
          = Some (ConsoleError (Some CONNECT_ERROR)
                    (Error "Connector not connected")) ∧
        (@nil Input = [] → @nil Input = [] →
         signer w' = signer connected_world).
Proof.
  apply (connect_keeps_old_signer_when_derivation_fails
           signerless_env connected_world [] [] alice []).
  - reflexivity.
  - reflexivity.
  - apply Forall_nil_2.
Defined.



(** ** The listener's signer derivations *)

Section Derivations.

Lemma count_account_listeners_cons id cb subs :
  count_account_listeners ((id, cb) :: subs) =
    ((if is_account_listener cb then 1 else 0)
     + count_account_listeners subs)%nat.
Proof.
  unfold count_account_listeners. rewrite filter_cons. cbn [snd].
  destruct cb; cbn; destruct (decide _); cbn; congruence.
Qed.

Lemma count_account_listeners_installed subs :
  (∃ id, (id, AccountListener) ∈ subs) →
  (0 < count_account_listeners subs)%nat.
Proof.
  intros [id Hid]. induction subs as [|[i cb] subs IH].
  - now apply elem_of_nil in Hid.
  - rewrite count_account_listeners_cons.
    apply elem_of_cons in Hid as [[= <- <-]|Hid]; [cbn; lia|].
    specialize (IH Hid). lia.
Qed.

Lemma count_account_listeners_none subs :
  has_account_listener subs = false → count_account_listeners subs = 0%nat.
Proof.
  induction subs as [|[i cb] subs IH]; [reflexivity|].
  rewrite count_account_listeners_cons.
  change (has_account_listener ((i, cb) :: subs))
    with (is_account_listener cb || has_account_listener subs).
  destruct cb; cbn; [discriminate|exact IH].
Qed.

(** The tasks an emission parks: one derivation per account listener when
    the state carries an account, none otherwise. *)
Lemma run_subscribers_tasks st subs w :
  tasks (run_subscribers st subs w) =
    (tasks w ++
     replicate
       (match listener_new_account st with
        | Some _ => count_account_listeners subs
        | None => 0%nat
        end) SignerThen)%list.
Proof.
  revert w. induction subs as [|[id cb] subs IH]; intros w.
  - cbn. destruct (listener_new_account st); cbn; now rewrite app_nil_r.
  - rewrite run_subscribers_cons, IH, count_account_listeners_cons.
    destruct cb as [|l]; cbn [snd run_callback is_account_listener].
    + rewrite account_listener_run. cbn [snd].
      destruct (listener_new_account st) as [a|]; cbn; [|reflexivity].
      now rewrite <- app_assoc.
    + rewrite address_listener_run. cbn [snd].
      now destruct (listener_new_account st).
Qed.

(** Without an account listener among them, the subscribers leave the
    adapter's fields and tasks alone. *)
Lemma run_subscribers_without_listener st subs w :
  has_account_listener subs = false →
  account (run_subscribers st subs w) = account w ∧
  signer (run_subscribers st subs w) = signer w ∧
  tasks (run_subscribers st subs w) = tasks w.
Proof.
  intros Hnone. split; [|split].
  - now rewrite run_subscribers_account, Hnone.
  - revert w. induction subs as [|[id cb] subs IH]; intros w; [reflexivity|].
    change (has_account_listener ((id, cb) :: subs))
      with (is_account_listener cb || has_account_listener subs) in Hnone.
    destruct cb as [|l]; [discriminate|]. cbn in Hnone.
    rewrite run_subscribers_cons, IH by exact Hnone.
    cbn [snd run_callback]. rewrite address_listener_run. cbn [snd].
    now destruct (listener_new_account st).
  - rewrite run_subscribers_tasks, count_account_listeners_none
      by exact Hnone.
    destruct (listener_new_account st); cbn; now rewrite app_nil_r.
Qed.

Lemma run_subscribers_signer_kept st subs w a :
  listener_new_account st = Some a →
  signer (run_subscribers st subs w) = signer w.
Proof.
  intros Hsome. revert w.
  induction subs as [|[id cb] subs IH]; intros w; [reflexivity|].
  rewrite run_subscribers_cons, IH.
  destruct cb as [|l]; cbn [snd run_callback].
  - now rewrite account_listener_run, Hsome.
  - now rewrite address_listener_run, Hsome.
Qed.

Lemma emit_tasks st w :
  tasks (emit st w) =
    (tasks w ++
     replicate
       (match listener_new_account st with
        | Some _ => count_account_listeners (subscribers w)
        | None => 0%nat
        end) SignerThen)%list.
Proof. rewrite emit_run_subscribers. now rewrite run_subscribers_tasks. Qed.

(** The derivation an emission with an account parks is still parked, at
    the same place, after an emission without account. *)
Lemma parked_derivation_survives st st' w a :
  listener_installed w →
  listener_new_account st = Some a →
  listener_new_account st' = None →
  tasks (emit st' (emit st w)) !! length (tasks w) = Some SignerThen.
Proof.
  intros Hinst Hsome Hnone. rewrite !emit_tasks, Hsome, Hnone.
  cbn [replicate]. rewrite app_nil_r.
  rewrite lookup_app_r by lia. rewrite Nat.sub_diag.
  apply lookup_replicate_2.
  now apply count_account_listeners_installed.
Qed.

End Derivations.

(** X6.  The listener does not compare the new account with the old one:
    every emission that carries an account starts one more signer
    derivation for each subscribed account listener and leaves [signer] as
    it is until one settles; an emission without account starts none. *)
Theorem every_emission_with_account_derives_again
    (st : StoreState) (w : World) :
  match listener_new_account st with
  | Some _ =>
    tasks (emit st w) =
      (tasks w ++
       replicate (count_account_listeners (subscribers w)) SignerThen)%list ∧
    signer (emit st w) = signer w
  | None => tasks (emit st w) = tasks w
  end.
Proof.
  pose proof (emit_tasks st w) as Ht.
  destruct (listener_new_account st) as [a|] eqn:Hacc.
  - split; [exact Ht|]. rewrite emit_run_subscribers.
    now rewrite (run_subscribers_signer_kept st _ _ a Hacc).
  - rewrite Ht. cbn. now rewrite app_nil_r.
Qed.

(** X5.  A derivation started for one account can settle after the store
    has emitted a state without account: the listener being subscribed,
    after an emission with an account, an emission without one, and then
    the resolution of the derivation the first emission started, [account]
    is null while [signer] is the late signer. *)
Theorem stale_derivation_outlives_disconnect
    (w : World) (st st' : StoreState) (a : Address) (sg : Signer) :
  listener_installed w →
  listener_new_account st = Some a →
  listener_new_account st' = None →
  account
    (react_all w
       [Emit st; Emit st';
        Settle (length (tasks w)) (SignerSettled (Resolved sg))]) = None ∧
  signer
    (react_all w
       [Emit st; Emit st';
        Settle (length (tasks w)) (SignerSettled (Resolved sg))]) = Some sg.
Proof.
  intros Hinst Hsome Hnone.
  assert (Hinst1 : listener_installed (emit st w))
    by (unfold listener_installed; now rewrite emit_subscribers).
  assert (Htask : tasks (emit st' (emit st w)) !! length (tasks w)
                    = Some SignerThen).
  { now apply (parked_derivation_survives st st' w a). }
  cbn [react_all foldl react]. unfold settle at 1 2. rewrite Htask. cbn.
  split; [|reflexivity].
  rewrite emit_account by exact Hinst1. now rewrite Hnone.
Qed.

Lemma stale_derivation_outlives_disconnect_witness :
  account
    (react_all idle_world
       [Emit alice_state; Emit disconnected_state;
        Settle (length (tasks idle_world))
          (SignerSettled (Resolved (SignerRef 9)))]) = None ∧
  signer
    (react_all idle_world
       [Emit alice_state; Emit disconnected_state;
        Settle (length (tasks idle_world))
          (SignerSettled (Resolved (SignerRef 9)))]) = Some (SignerRef 9).
Proof.
  apply (stale_derivation_outlives_disconnect idle_world alice_state
           disconnected_state alice (SignerRef 9)).
  - exists 0. apply list_elem_of_here.
  - vm_compute. reflexivity.
  - reflexivity.
Defined.

(** ** Releasing subscriptions *)

Section Releasing.

Lemma cleanupListeners_run w id :
  unsubscribeAccount w = Some id →
  cleanupListeners w =
    (Resolved tt,
     log (Unsubscribed id)
       (with_subscribers (filter (fun sub => fst sub ≠ id) (subscribers w))
          (next_subscription w) w)).
Proof.
  intros H. unfold cleanupListeners, bind, read, unsubscribe, modify.
  now rewrite H.
Qed.

Lemma filter_removes_account_listener (subs : list (nat * Callback)) id :
  (∀ i, (i, AccountListener) ∈ subs → i = id) →
  has_account_listener (filter (fun sub => fst sub ≠ id) subs) = false.
Proof.
  intros Honly. induction subs as [|[i cb] subs IH]; [reflexivity|].
  assert (IH' : has_account_listener
                  (filter (fun sub => fst sub ≠ id) subs) = false).
  { apply IH. intros j Hj. apply Honly. now apply list_elem_of_further. }
  rewrite filter_cons. destruct (decide (fst (i, cb) ≠ id)) as [Hne|_];
    [|exact IH'].
  change (has_account_listener ((i, cb) :: filter (λ sub, sub.1 ≠ id) subs))
    with (is_account_listener cb
          || has_account_listener (filter (λ sub, sub.1 ≠ id) subs)).
  rewrite IH'. destruct cb as [|l]; [|reflexivity].
  exfalso. apply Hne. cbn. apply Honly. apply list_elem_of_here.
Qed.

End Releasing.

(** X7.  When the handle the constructor kept names the only account
    listener, [cleanupListeners()] ends the tracking: later emissions
    change neither [account] nor [signer] and start no derivation.  The
    subscriptions made by [addAddressEvent] stay, and the handle is not
    cleared. *)
Theorem cleanupListeners_stops_account_tracking (w : World) (id : nat) :
  unsubscribeAccount w = Some id →
  (∀ i, (i, AccountListener) ∈ subscribers w → i = id) →
  fst (cleanupListeners w) = Resolved tt ∧
  unsubscribeAccount (snd (cleanupListeners w)) = Some id ∧
  (∀ st,
     account (emit st (snd (cleanupListeners w))) = account w ∧
     signer (emit st (snd (cleanupListeners w))) = signer w ∧
     tasks (emit st (snd (cleanupListeners w))) = tasks w) ∧
  (∀ i listener,
     (i, AddressListener listener) ∈ subscribers w → i ≠ id →
     (i, AddressListener listener) ∈ subscribers (snd (cleanupListeners w))).
Proof.
  intros Hid Honly. rewrite (cleanupListeners_run w id Hid).
  cbn [fst snd]. split; [reflexivity|]. split; [exact Hid|]. split.
  - intros st. rewrite emit_run_subscribers.
    cbn [subscribers log with_subscribers].
    match goal with
    | |- context [run_subscribers st ?subs ?w'] =>
      destruct (run_subscribers_without_listener st subs w'
                  (filter_removes_account_listener _ id Honly))
        as (Ha & Hs & Ht)
    end.
    rewrite Ha, Hs, Ht. repeat split.
  - intros i listener Hin Hne. cbn [subscribers log with_subscribers].
    apply list_elem_of_filter. split; [exact Hne|exact Hin].
Qed.

Lemma cleanupListeners_stops_account_tracking_witness :
  fst (cleanupListeners idle_world) = Resolved tt ∧
  unsubscribeAccount (snd (cleanupListeners idle_world)) = Some 0 ∧
  (∀ st,
     account (emit st (snd (cleanupListeners idle_world)))
       = account idle_world ∧
     signer (emit st (snd (cleanupListeners idle_world)))
       = signer idle_world ∧
     tasks (emit st (snd (cleanupListeners idle_world)))
       = tasks idle_world) ∧
  (∀ i listener,
     (i, AddressListener listener) ∈ subscribers idle_world → i ≠ 0 →
     (i, AddressListener listener)
       ∈ subscribers (snd (cleanupListeners idle_world))).
Proof.
  apply (cleanupListeners_stops_account_tracking idle_world 0).
  - reflexivity.
  - intros i Hi. apply list_elem_of_singleton in Hi. now inversion Hi.
Defined.

(** X8.  Subscribing the same host listener twice makes two subscriptions:
    one emission with an account then calls it twice, and calling the first
    closure returned leaves the second subscription, which still calls it
    once. *)
Theorem same_listener_subscribed_twice
    (w : World) (fn : ListenerId) (st : StoreState) (a : Address)
    (e : CustomEvent) :
  not_subscribed fn w →
  store_ok w →
  listener_new_account st = Some a →
  calls_of fn
    (trace (emit st (snd (addAddressEvent fn (snd (addAddressEvent fn w))))))
    = address_text a :: address_text a :: calls_of fn (trace w) ∧
  calls_of fn
    (trace
       (emit st
          (snd (call_detacher (DetachSubscription (next_subscription w)) e
                  (snd (addAddressEvent fn (snd (addAddressEvent fn w))))))))
    = address_text a :: calls_of fn (trace w).
Proof.
  intros Hfresh Hok Hsome. rewrite !addAddressEvent_run.
  unfold call_detacher, unsubscribe, modify.
  cbn [snd subscribers log with_subscribers next_subscription].
  split.
  - rewrite emit_run_subscribers.
    cbn [subscribers log with_subscribers].
    rewrite !run_subscribers_snoc, !run_callback_calls. cbn [snd].
    rewrite !decide_True by reflexivity. rewrite ?Hsome.
    now rewrite run_subscribers_calls_others by exact Hfresh.
  - rewrite emit_run_subscribers.
    cbn [subscribers log with_subscribers].
    rewrite !filter_app, filter_other_ids by exact Hok.
    rewrite filter_cons_False by (cbn; intros H; now apply H).
    rewrite filter_cons_True by (cbn; lia).
    rewrite !filter_nil, app_nil_r.
    rewrite run_subscribers_snoc, run_callback_calls. cbn [snd].
    rewrite !decide_True by reflexivity. rewrite ?Hsome.
    now rewrite run_subscribers_calls_others by exact Hfresh.
Qed.

Lemma same_listener_subscribed_twice_witness :
  calls_of 7
    (trace (emit alice_state
              (snd (addAddressEvent 7 (snd (addAddressEvent 7 idle_world))))))
    = address_text alice :: address_text alice
        :: calls_of 7 (trace idle_world) ∧
  calls_of 7
    (trace
       (emit alice_state
          (snd (call_detacher
                  (DetachSubscription (next_subscription idle_world))
                  (NewCustomEvent "addressChange")
                  (snd (addAddressEvent 7
                          (snd (addAddressEvent 7 idle_world))))))))
    = address_text alice :: calls_of 7 (trace idle_world).
Proof.
  apply (same_listener_subscribed_twice idle_world 7 alice_state alice).
  - intros id H. apply list_elem_of_singleton in H. discriminate.
  - apply Forall_cons. split; [cbn; lia|apply Forall_nil_2].
  - vm_compute. reflexivity.
Defined.

(** X9.  With a function of the host, [removeAddressEvent] does not undo
    [addAddressEvent]: after both, an emission with an account still calls
    the subscribed listener, once, with the address.  Only when it is given
    the closure that [addAddressEvent] returned does the subscription end,
    and the listener is no longer called. *)
Theorem removeAddressEvent_does_not_detach
    (w : World) (fn remover : ListenerId) (st : StoreState) (a : Address) :
  not_subscribed fn w →
  store_ok w →
  listener_new_account st = Some a →
  calls_of fn
    (trace (emit st (snd (removeAddressEvent (HostEventListener remover)
                            (snd (addAddressEvent fn w))))))
    = address_text a :: calls_of fn (trace w) ∧
  calls_of fn
    (trace
       (emit st
          (snd (removeAddressEvent
                  (DetacherListener (DetachSubscription (next_subscription w)))
                  (snd (addAddressEvent fn w))))))
    = calls_of fn (trace w).
Proof.
  intros Hfresh Hok Hsome. split.
  - rewrite addAddressEvent_run.
    unfold removeAddressEvent, call_event_listener, bind, read, modify.
    cbn [snd].
    rewrite emit_run_subscribers. cbn [subscribers log with_subscribers].
    rewrite run_subscribers_snoc, run_callback_calls. cbn [snd].
    rewrite decide_True by reflexivity. rewrite Hsome.
    now rewrite run_subscribers_calls_others by exact Hfresh.
  - unfold removeAddressEvent, call_event_listener, bind, read. cbn [fst snd].
    rewrite (detach_after_addAddressEvent fn w _ Hok). cbn [snd].
    rewrite emit_run_subscribers. cbn [subscribers log with_subscribers].
    now rewrite run_subscribers_calls_others by exact Hfresh.
Qed.

Lemma removeAddressEvent_does_not_detach_witness :
  calls_of 7
    (trace (emit alice_state
              (snd (removeAddressEvent (HostEventListener 8)
                      (snd (addAddressEvent 7 idle_world))))))
    = address_text alice :: calls_of 7 (trace idle_world) ∧
  calls_of 7
    (trace
       (emit alice_state
          (snd (removeAddressEvent
                  (DetacherListener
                     (DetachSubscription (next_subscription idle_world)))
                  (snd (addAddressEvent 7 idle_world))))))
    = calls_of 7 (trace idle_world).
Proof.
  apply (removeAddressEvent_does_not_detach idle_world 7 8 alice_state alice).
  - intros id H. apply list_elem_of_singleton in H. discriminate.
  - apply Forall_cons. split; [cbn; lia|apply Forall_nil_2].
  - vm_compute. reflexivity.
Defined.

(** ** The hex framing of [decrypt] *)

Section HexFraming.

Local Open Scope Z_scope.

Lemma hex_pair_shape b :
  is_byte b →
  padStart2 (toString16 b)
    = String (hex_digit (b / 16)) (String (hex_digit (b mod 16)) EmptyString).
Proof.
  intros Hb. unfold is_byte in Hb. unfold toString16.
  destruct (Z.ltb_spec b 16) as [Hlt|Hge]; [|reflexivity].
  cbn [padStart2]. rewrite Z.div_small, Z.mod_small by lia. reflexivity.
Qed.

Lemma hex_pairs_length data :
  Forall is_byte data →
  String.length
    (foldr (fun b acc => padStart2 (toString16 b) ++ acc)%string
       EmptyString data)
    = (2 * length data)%nat.
Proof.
  induction 1 as [|b data Hb _ IH]; [reflexivity|].
  cbn [foldr]. rewrite hex_pair_shape by exact Hb.
  rewrite !append_String, append_EmptyString. cbn [String.length length].
  rewrite IH. lia.
Qed.

End HexFraming.

(** X10.  The hex text [decrypt] builds has two characters per byte after
    its [0x] prefix. *)
Theorem hex_frame_length (data : bytes) :
  Forall is_byte data →
  String.length (hex_frame data) = (2 + 2 * length data)%nat.
Proof.
  intros H. unfold hex_frame.
  rewrite !append_String, append_EmptyString. cbn [String.length].
  now rewrite hex_pairs_length.
Qed.

Lemma hex_frame_length_witness :
  String.length (hex_frame [0; 10; 255]%Z) = (2 + 2 * length [0; 10; 255]%Z)%nat.
Proof.
  apply (hex_frame_length [0; 10; 255]%Z).
  repeat (apply Forall_cons; split; [unfold is_byte; lia|]).
  apply Forall_nil_2.
Defined.

(** X11.  The hex framing loses nothing: two byte sequences with the same
    hex text are the same sequence. *)
Theorem hex_frame_injective (data1 data2 : bytes) :
  Forall is_byte data1 →
  Forall is_byte data2 →
  hex_frame data1 = hex_frame data2 →
  data1 = data2.
Proof.
  intros H1 H2 Heq.
  rewrite <- (unhex_frame_hex_frame data1 H1).
  rewrite <- (unhex_frame_hex_frame data2 H2).
  now rewrite Heq.
Qed.

Lemma hex_frame_injective_witness : [1; 171]%Z = [1; 171]%Z.
Proof.
  apply (hex_frame_injective [1; 171]%Z [1; 171]%Z).
  - repeat (apply Forall_cons; split; [unfold is_byte; lia|]).
    apply Forall_nil_2.
  - repeat (apply Forall_cons; split; [unfold is_byte; lia|]).
    apply Forall_nil_2.
  - reflexivity.
Defined.

(** ** [encrypt] and [decrypt] one by one *)

(** X12.  Given well-formed UTF-8 without a byte order mark, [decrypt]
    sends the provider the hex text of exactly the bytes it was given,
    together with the account (the empty text when it is null), and
    returns the provider's answer as it is, rejections included. *)
Theorem decrypt_frames_well_formed_data
    (env : Env) (w : World) (text : jsstring) (sg : Signer) :
  plain_text text →
  getEthersSigner env (trace w) = Resolved sg →
  decrypt env (TextEncoder_encode text) w =
    (provider_send env (CallGetEthersSigner :: trace w) sg
       (EthDecrypt (hex_frame (TextEncoder_encode text))
          (match account w with Some a => a | None => EmptyString end)),
     log (CallProviderSend sg
            (EthDecrypt (hex_frame (TextEncoder_encode text))
               (match account w with Some a => a | None => EmptyString end)))
       (log CallGetEthersSigner w)).
Proof.
  intros Htext Hsg. rewrite (decrypt_run env _ w sg Hsg).
  rewrite (TextDecoder_decode_encode text Htext).
  now destruct (account w).
Qed.

Lemma decrypt_frames_well_formed_data_witness :
  decrypt echo_env (TextEncoder_encode [0x67; 0x6D]%Z) idle_world =
    (provider_send echo_env (CallGetEthersSigner :: trace idle_world)
       (SignerRef 1)
       (EthDecrypt (hex_frame (TextEncoder_encode [0x67; 0x6D]%Z))
          (match account idle_world with
           | Some a => a | None => EmptyString end)),
     log (CallProviderSend (SignerRef 1)
            (EthDecrypt (hex_frame (TextEncoder_encode [0x67; 0x6D]%Z))
               (match account idle_world with
                | Some a => a | None => EmptyString end)))
       (log CallGetEthersSigner idle_world)).
Proof.
  apply (decrypt_frames_well_formed_data echo_env idle_world).
  - split; [|discriminate].
    repeat (apply Forall_cons; split; [unfold scalar_value; lia|]).
    apply Forall_nil_2.
  - reflexivity.
Defined.

(** X13.  [encrypt] and [decrypt] derive a signer of their own: what they
    return does not depend on the cached [signer] (they work while it is
    null), and they leave [account] and [signer] as they are. *)
Theorem encrypt_decrypt_ignore_cached_signer
    (env : Env) (w : World) (data : bytes) (s : option Signer) :
  fst (encrypt env data (with_signer s w)) = fst (encrypt env data w) ∧
  fst (decrypt env data (with_signer s w)) = fst (decrypt env data w) ∧
  account (snd (encrypt env data w)) = account w ∧
  signer (snd (encrypt env data w)) = signer w ∧
  account (snd (decrypt env data w)) = account w ∧
  signer (snd (decrypt env data w)) = signer w.
Proof.
  unfold encrypt, decrypt, getActiveAddress, bind, external, read, ret. cbn.
  destruct (getEthersSigner env (trace w)) as [sg|e]; cbn;
    [|repeat split].
  destruct (provider_send env (CallGetEthersSigner :: trace w) sg
              (EthGetEncryptionPublicKey (account w))) as [pk|e]; cbn;
    [|repeat split].
  destruct (sigutil_encrypt env
              (CallProviderSend sg (EthGetEncryptionPublicKey (account w))
                 :: CallGetEthersSigner :: trace w)
              pk (TextDecoder_decode data) ENCRYPTION_VERSION) as [ed|e];
    cbn; repeat split.
Qed.

(** X14.  [encrypt] stops at the first of its three external steps that
    fails and rejects with that step's error, without making the later
    calls; when all three succeed it resolves with the UTF-8 bytes of the
    JSON text of the encrypted object. *)
Theorem encrypt_stops_at_first_failure
    (env : Env) (w : World) (data : bytes) :
  match getEthersSigner env (trace w) with
  | Rejected e => encrypt env data w = (Rejected e, log CallGetEthersSigner w)
  | Resolved sg =>
    match provider_send env (CallGetEthersSigner :: trace w) sg
            (EthGetEncryptionPublicKey (account w)) with
    | Rejected e =>
      encrypt env data w =
        (Rejected e,
         log (CallProviderSend sg (EthGetEncryptionPublicKey (account w)))
           (log CallGetEthersSigner w))
    | Resolved pk =>
      match sigutil_encrypt env
              (CallProviderSend sg (EthGetEncryptionPublicKey (account w))
                 :: CallGetEthersSigner :: trace w)
              pk (TextDecoder_decode data) ENCRYPTION_VERSION with
      | Rejected e =>
        fst (encrypt env data w) = Rejected e ∧
        trace (snd (encrypt env data w)) =
          CallEncrypt pk (TextDecoder_decode data) ENCRYPTION_VERSION
          :: CallProviderSend sg (EthGetEncryptionPublicKey (account w))
          :: CallGetEthersSigner :: trace w
      | Resolved ed =>
        fst (encrypt env data w)
          = Resolved (TextEncoder_encode (JSON_stringify env ed))
      end
    end
  end.
Proof.
  unfold encrypt, bind, external, read, ret. cbn.
  destruct (getEthersSigner env (trace w)) as [sg|e]; cbn; [|reflexivity].
  destruct (provider_send env (CallGetEthersSigner :: trace w) sg
              (EthGetEncryptionPublicKey (account w))) as [pk|e]; cbn;
    [|reflexivity].
  destruct (sigutil_encrypt env
              (CallProviderSend sg (EthGetEncryptionPublicKey (account w))
                 :: CallGetEthersSigner :: trace w)
              pk (TextDecoder_decode data) ENCRYPTION_VERSION) as [ed|e];
    cbn; [reflexivity|split; reflexivity].
Qed.

(** ** Data items *)

(** X15.  [signDataItem] refuses to run while no signer is cached, with
    "Signer not available" and without calling the factory; with a cached
    signer it never uses it: its result is the same whichever signer is
    cached, it comes from the factory's signer, and the world is left as it
    was. *)
Theorem signDataItem_needs_but_ignores_cached_signer
    (denv : DataItemEnv) (item : DataItem) (w : World)
    (calls : list DataItemCall) :
  match signer w with
  | None =>
    signDataItem denv item (w, calls)
      = (Rejected (Error "Signer not available"), (w, calls))
  | Some _ =>
    fst (snd (signDataItem denv item (w, calls))) = w ∧
    (∀ other,
       fst (signDataItem denv item (with_signer (Some other) w, calls))
         = fst (signDataItem denv item (w, calls))) ∧
    match createWagmiDataItemSigner denv (trace w) calls with
    | Rejected e => fst (signDataItem denv item (w, calls)) = Rejected e
    | Resolved ds =>
      fst (signDataItem denv item (w, calls)) =
        dataItemSigner_raw denv (trace w)
          (CallCreateWagmiDataItemSigner :: calls) ds item
    end
  end.
Proof.
  unfold signDataItem, createDataItemSigner. cbn.
  destruct (signer w) as [sg|]; [|reflexivity].
  destruct (createWagmiDataItemSigner denv (trace w) calls) as [ds|e];
    repeat split.
Qed.

(** ** Every history *)

(** X16.  In every world reached from the constructor by any sequence of
    method calls, emissions and settlements, the store's subscription ids
    are pairwise distinct and below the next id; hence calling a closure
    returned by [addAddressEvent] removes at most one subscription. *)
Theorem subscription_ids_stay_distinct
    (env : Env) (st : StoreState) (actions : list Action)
    (d : Detacher) (e : CustomEvent) :
  NoDup (fst <$> subscribers (perform_all env (constructor st) actions)) ∧
  Forall
    (fun sub =>
       (fst sub
        < next_subscription (perform_all env (constructor st) actions))%nat)
    (subscribers (perform_all env (constructor st) actions)) ∧
  (length (subscribers (perform_all env (constructor st) actions))
   ≤ S (length
          (subscribers
             (perform env (perform_all env (constructor st) actions)
                (DoDetach d e)))))%nat.
Proof.
  destruct (perform_all_store_ids_fresh env (constructor st) actions
              (constructor_store_ids_fresh st)) as [Hok Hnd].
  split; [exact Hnd|]. split; [exact Hok|].
  destruct d as [id]. cbn [perform call_detacher].
  unfold unsubscribe, modify.
  cbn [snd subscribers log with_subscribers].
  now apply filter_drops_at_most_one.
Qed.

(** X17.  In every world reached from the constructor, [account] is null or
    the text of an address, so [getActiveAddress()] resolves to the empty
    text exactly when [account] is null. *)
Theorem active_address_is_empty_only_when_unauthenticated
    (env : Env) (st : StoreState) (actions : list Action) :
  account_is_address (perform_all env (constructor st) actions) ∧
  (fst (getActiveAddress (perform_all env (constructor st) actions))
     = Resolved EmptyString
   ↔ account (perform_all env (constructor st) actions) = None).
Proof.
  assert (H : account_is_address (perform_all env (constructor st) actions)).
  { apply perform_all_account_is_address. now left. }
  split; [exact H|].
  revert H. generalize (perform_all env (constructor st) actions).
  intros w' H. unfold getActiveAddress, bind, read, ret. cbn.
  destruct H as [Hnone|[a Ha]].
  - rewrite Hnone. split; reflexivity.
  - rewrite Ha. destruct a as [digits]. cbn. split; discriminate.
Qed.

(** ** Disconnection and derivations in flight *)

(** X18.  [disconnect()] does not cancel a signer derivation that the
    listener or [sync] started: when the connector's disconnect routine
    succeeds and a parked derivation resolves afterwards, [account] is null
    but [signer] is the late signer, and [signMessage] goes to it. *)
Theorem disconnect_does_not_cancel_derivations
    (env : Env) (w : World) (i : nat) (sg : Signer) (message : string) :
  tasks w !! i = Some SignerThen →
  wagmi_disconnect env (trace w) = Resolved tt →
  account
    (settle i (SignerSettled (Resolved sg)) (snd (disconnect env w))) = None ∧
  signer
    (settle i (SignerSettled (Resolved sg)) (snd (disconnect env w)))
    = Some sg ∧
  fst (signMessage env message
         (settle i (SignerSettled (Resolved sg)) (snd (disconnect env w))))
    = signer_signMessage env (CallDisconnect :: trace w) sg message.
Proof.
  intros Htask Hd. rewrite (disconnect_resolved_run env w Hd). cbn [snd].
  unfold settle. cbn [tasks with_signer with_account log]. rewrite Htask.
  repeat split.
Qed.

Lemma disconnect_does_not_cancel_derivations_witness :
  account
    (settle 1 (SignerSettled (Resolved (SignerRef 9)))
       (snd (disconnect granting_env (emit alice_state idle_world)))) = None ∧
  signer
    (settle 1 (SignerSettled (Resolved (SignerRef 9)))
       (snd (disconnect granting_env (emit alice_state idle_world))))
    = Some (SignerRef 9) ∧
  fst (signMessage granting_env "gm"
         (settle 1 (SignerSettled (Resolved (SignerRef 9)))
            (snd (disconnect granting_env (emit alice_state idle_world)))))
    = signer_signMessage granting_env
        (CallDisconnect :: trace (emit alice_state idle_world))
        (SignerRef 9) "gm".
Proof.
  apply (disconnect_does_not_cancel_derivations granting_env
           (emit alice_state idle_world) 1 (SignerRef 9) "gm").
  - vm_compute. reflexivity.
  - reflexivity.
Defined.
